(** * RealEstateX: the deed / identity reconciliation engine

    A shallow embedding of [backend/verify_docs_fastapi.py] and the
    properties its specification states about it.

    Conventions of the embedding.
    - Python [str] values are modelled by [string]; the characters are the
      ASCII code points, which is the range on which [str.upper], [str.strip],
      [str.split] and the classes [\d], [\s], [A-Z] of [re] are given here.
    - A Python object coming out of the registry's JSON answer is a [value];
      method calls and subscripts on a value of the wrong type raise, as in
      Python, and the exception is a value of [exn].
    - The three collaborators (OCR, entity extraction, the HTTP call to the
      registry) are parameters of the pipeline; they act on an abstract
      [World] and every call is recorded in a log. *)

From Stdlib Require Import String Ascii List Bool Arith ZArith NArith QArith Lia.
Import ListNotations.

Local Close Scope Q_scope.
Local Open Scope nat_scope.
Local Open Scope string_scope.
Local Open Scope list_scope.
Local Set Warnings "-register-all".

(* ===================================================================== *)
(** * Python strings *)
(* ===================================================================== *)

Module PyStr.

(** [c.isspace()] on the ASCII range: TAB, LF, VT, FF, CR, the four
    separators FS, GS, RS, US, and the space. *)
Definition isspace (c : ascii) : bool :=
  let n := N_of_ascii c in
  ((9 <=? n) && (n <=? 13) || (28 <=? n) && (n <=? 32))%N.

Definition isdigit (c : ascii) : bool :=
  let n := N_of_ascii c in ((48 <=? n) && (n <=? 57))%N.

Definition isupper (c : ascii) : bool :=
  let n := N_of_ascii c in ((65 <=? n) && (n <=? 90))%N.

Definition islower (c : ascii) : bool :=
  let n := N_of_ascii c in ((97 <=? n) && (n <=? 122))%N.

Definition upper_char (c : ascii) : ascii :=
  if islower c then ascii_of_N (N_of_ascii c - 32) else c.

(** [s.upper()] *)
Fixpoint upper (s : string) : string :=
  match s with
  | EmptyString => EmptyString
  | String c s' => String (upper_char c) (upper s')
  end.

(** [s.lstrip()] *)
Fixpoint lstrip (s : string) : string :=
  match s with
  | EmptyString => EmptyString
  | String c s' => if isspace c then lstrip s' else s
  end.

(** [s.rstrip()]: a character is kept when it is not white space or when
    something survives to its right. *)
Fixpoint rstrip (s : string) : string :=
  match s with
  | EmptyString => EmptyString
  | String c s' =>
      match rstrip s' with
      | EmptyString => if isspace c then EmptyString else String c EmptyString
      | r => String c r
      end
  end.

(** [s.strip()] *)
Definition strip (s : string) : string := rstrip (lstrip s).

(** [s.split()] with no argument: maximal runs of characters that are not
    white space, in order.  [cur] is the word being read. *)
Fixpoint split_from (cur s : string) : list string :=
  match s with
  | EmptyString => match cur with EmptyString => [] | _ => [cur] end
  | String c s' =>
      if isspace c then
        match cur with
        | EmptyString => split_from EmptyString s'
        | _ => cur :: split_from EmptyString s'
        end
      else split_from (cur ++ String c EmptyString)%string s'
  end.

Definition split (s : string) : list string := split_from EmptyString s.

(** [''.join(parts)] *)
Definition join (parts : list string) : string :=
  fold_right String.append EmptyString parts.

(** [s.startswith(p)] *)
Fixpoint startswith (p s : string) : bool :=
  match p, s with
  | EmptyString, _ => true
  | String _ _, EmptyString => false
  | String a p', String b s' => Ascii.eqb a b && startswith p' s'
  end.

(** [sub in s]: raw substring containment. *)
Fixpoint contains (s sub : string) : bool :=
  startswith sub s ||
  match s with
  | EmptyString => false
  | String _ s' => contains s' sub
  end.

Definition is_empty (s : string) : bool :=
  match s with EmptyString => true | _ => false end.

End PyStr.

(* ===================================================================== *)
(** * Python values, exceptions *)
(* ===================================================================== *)

(** What [response.json()] can hold.  Numbers (int or float) are carried as
    rationals: the pipeline only tests them for zero and echoes them.  A
    [dict] is its list of items; [dict_lookup] reads the first item with the
    key. *)
Inductive value : Type :=
| JNull
| JBool (b : bool)
| JNum (q : Q)
| JStr (s : string)
| JList (items : list value)
| JDict (items : list (string * value)).

(** The exceptions the pipeline can meet.  [Raised] is an exception coming
    out of a collaborator (OCR, entity model, HTTP client, JSON decoding). *)
Inductive exn : Type :=
| AttributeError (obj : value) (attr : string)
| TypeError (obj : value)
| IndexError
| KeyError
| Raised (msg : string).

(** A computation that returns or raises. *)
Inductive result (A : Type) : Type :=
| Return (a : A)
| Raise (e : exn).
Arguments Return {A} a.
Arguments Raise {A} e.

Module Res.

Definition bind {A B} (c : result A) (f : A -> result B) : result B :=
  match c with
  | Return a => f a
  | Raise e => Raise e
  end.

End Res.

Declare Scope res_scope.
Delimit Scope res_scope with res.
Notation "x <- c ;; k" := (Res.bind c (fun x => k))
  (at level 61, c at next level, right associativity) : res_scope.

Module Py.
Import PyStr.
Local Open Scope res_scope.

(** [bool(v)] *)
Definition truthy (v : value) : bool :=
  match v with
  | JNull => false
  | JBool b => b
  | JNum q => negb (Qnum q =? 0)%Z
  | JStr s => negb (is_empty s)
  | JList l => match l with [] => false | _ => true end
  | JDict d => match d with [] => false | _ => true end
  end.

Fixpoint dict_lookup (k : string) (d : list (string * value)) : option value :=
  match d with
  | [] => None
  | (k', v) :: d' => if String.eqb k k' then Some v else dict_lookup k d'
  end.

(** [d.get(k, default)] on the items of a dict. *)
Definition lookup_or (d : list (string * value)) (k : string) (default : value)
  : value :=
  match dict_lookup k d with
  | Some v => v
  | None => default
  end.

(** [obj.get(k, default)]: only a dict has the method. *)
Definition get (obj : value) (k : string) (default : value) : result value :=
  match obj with
  | JDict d => Return (lookup_or d k default)
  | _ => Raise (AttributeError obj "get")
  end.

(** [obj[0]] *)
Definition item0 (obj : value) : result value :=
  match obj with
  | JList (x :: _) => Return x
  | JList [] => Raise IndexError
  | JStr (String c _) => Return (JStr (String c EmptyString))
  | JStr EmptyString => Raise IndexError
  | JDict _ => Raise KeyError
  | _ => Raise (TypeError obj)
  end.

(** [k in obj] for a string [k]: a key of a dict, an element of a list, a
    substring of a string. *)
Definition str_in (k : string) (obj : value) : result bool :=
  match obj with
  | JDict d => Return (match dict_lookup k d with Some _ => true | None => false end)
  | JList l =>
      Return (existsb (fun x => match x with JStr s => String.eqb k s | _ => false end) l)
  | JStr s => Return (contains s k)
  | _ => Raise (TypeError obj)
  end.

(** The receiver of a [str] method such as [.strip()] or [.upper()]. *)
Definition as_str (obj : value) (attr : string) : result string :=
  match obj with
  | JStr s => Return s
  | _ => Raise (AttributeError obj attr)
  end.

(** [s[0]] on a string. *)
Definition first_char (s : string) : result ascii :=
  match s with
  | String c _ => Return c
  | EmptyString => Raise IndexError
  end.

(** [[f(x) for x in xs]] where [f] may raise. *)
Fixpoint map_r {A B} (f : A -> result B) (xs : list A) : result (list B) :=
  match xs with
  | [] => Return []
  | x :: xs' => y <- f x ;; ys <- map_r f xs' ;; Return (y :: ys)
  end.

(** [[x for x in xs if p(x)]] where [p] may raise. *)
Fixpoint filter_r {A} (p : A -> result bool) (xs : list A) : result (list A) :=
  match xs with
  | [] => Return []
  | x :: xs' =>
      b <- p x ;; ys <- filter_r p xs' ;; Return (if b then x :: ys else ys)
  end.

(** [next((x for x in xs if p(x)), None)]: the generator is consumed up to
    its first element, so [p] runs on the entries in order and stops at the
    first one it accepts. *)
Fixpoint next_where {A} (p : A -> result bool) (xs : list A) : result (option A) :=
  match xs with
  | [] => Return None
  | x :: xs' => b <- p x ;; if b then Return (Some x) else next_where p xs'
  end.

Definition string_of_chars (cs : list ascii) : string :=
  fold_right String EmptyString cs.

(** [isinstance(v, str)] *)
Definition is_str (v : value) : bool :=
  match v with
  | JStr _ => true
  | _ => false
  end.

(** A string that may be absent ([None]). *)
Definition of_option (o : option string) : value :=
  match o with
  | Some s => JStr s
  | None => JNull
  end.

End Py.

(* ===================================================================== *)
(** * The name matcher *)
(* ===================================================================== *)

Module NameMatcher.
Import PyStr Py.
Local Open Scope res_scope.

Section WithScorer.

(** [fuzz.partial_ratio], the third-party scorer. *)
Variable partial_ratio : string -> string -> Z.

(** [''.join([part[0] for part in name.split()])] *)
Definition initials (name : string) : result string :=
  cs <- map_r first_char (split name) ;; Return (string_of_chars cs).

(** [is_name_match(ocr_name, regrid_name, threshold=70)] *)
Definition is_name_match (ocr_name regrid_name : value) (threshold : Z)
  : result bool :=
  if negb (truthy ocr_name) || negb (truthy regrid_name) then Return false
  else
    o <- as_str ocr_name "strip" ;;
    let ocr_name := upper (strip o) in
    r <- as_str regrid_name "strip" ;;
    let regrid_name := upper (strip r) in
    let fuzzy_score := partial_ratio ocr_name regrid_name in
    if (fuzzy_score >=? threshold)%Z then Return true
    else
      ocr_initials <- initials ocr_name ;;
      regrid_initials <- initials regrid_name ;;
      Return (String.eqb ocr_initials regrid_initials).

Definition default_threshold : Z := 70.

End WithScorer.

End NameMatcher.

(* ===================================================================== *)
(** * Regular expressions, as [re] runs them *)
(* ===================================================================== *)

Module Re.
Import PyStr.

(** The fragment of [re] syntax the address pattern is written in: literal
    text, a greedy bounded repetition [c{lo,hi}] of a character class
    ([hi = None] for [c+] and [c*]), concatenation and ordered
    alternation. *)
Inductive regex : Type :=
| Lit (text : string)
| Rep (cls : ascii -> bool) (lo : nat) (hi : option nat)
| Cat (r1 r2 : regex)
| Alt (r1 r2 : regex).

(** [p] removed from the front of [s], when [s] starts with it. *)
Fixpoint drop_prefix (p s : string) : option string :=
  match p, s with
  | EmptyString, _ => Some s
  | String _ _, EmptyString => None
  | String a p', String b s' => if Ascii.eqb a b then drop_prefix p' s' else None
  end.

Definition may_take (hi : option nat) : bool :=
  match hi with
  | Some O => false
  | _ => true
  end.

(** Greedy repetition with backtracking: take one more character when the
    class and the upper bound allow it and try the rest; when that fails,
    stop here if the lower bound is met. *)
Fixpoint rep_bt {A} (cls : ascii -> bool) (lo : nat) (hi : option nat)
    (s : string) (k : string -> option A) : option A :=
  let stop := if Nat.eqb lo 0 then k s else None in
  match s with
  | EmptyString => stop
  | String c s' =>
      if cls c && may_take hi then
        match rep_bt cls (Nat.pred lo) (option_map Nat.pred hi) s' k with
        | Some x => Some x
        | None => stop
        end
      else stop
  end.

(** The backtracking matcher: [bt r s k] tries the ways of matching [r] at
    the front of [s] in the order of [re] (greedy repetitions, alternatives
    from left to right) and hands what is left of [s] to [k]; the first
    success is the answer. *)
Fixpoint bt {A} (r : regex) (s : string) (k : string -> option A) : option A :=
  match r with
  | Lit p =>
      match drop_prefix p s with
      | Some rest => k rest
      | None => None
      end
  | Rep cls lo hi => rep_bt cls lo hi s k
  | Cat r1 r2 => bt r1 s (fun rest => bt r2 rest k)
  | Alt r1 r2 =>
      match bt r1 s k with
      | Some x => Some x
      | None => bt r2 s k
      end
  end.

Fixpoint take (n : nat) (s : string) : string :=
  match n, s with
  | S n', String c s' => String c (take n' s')
  | _, _ => EmptyString
  end.

(** [re.match(r, s)]: the text matched at the front of [s]. *)
Definition match_front (r : regex) (s : string) : option string :=
  match bt r s (fun rest => Some rest) with
  | Some rest => Some (take (String.length s - String.length rest) s)
  | None => None
  end.

(** A match object: where the match starts and [group(0)]. *)
Record match_object : Type := { m_start : nat; group0 : string }.

(** [re.search(r, s)]: the match at the first position that has one. *)
Fixpoint search_from (pos : nat) (r : regex) (s : string) : option match_object :=
  match match_front r s with
  | Some m => Some {| m_start := pos; group0 := m |}
  | None =>
      match s with
      | EmptyString => None
      | String _ s' => search_from (S pos) r s'
      end
  end.

Definition search (r : regex) (s : string) : option match_object :=
  search_from 0 r s.

(** [(?:a|b|...)] *)
Fixpoint alternation (first : string) (others : list string) : regex :=
  match others with
  | [] => Lit first
  | o :: others' => Alt (Lit first) (alternation o others')
  end.

(** The language of a pattern, position and order forgotten. *)
Fixpoint all_in (cls : ascii -> bool) (s : string) : bool :=
  match s with
  | EmptyString => true
  | String c s' => cls c && all_in cls s'
  end.

Definition below (n : nat) (hi : option nat) : Prop :=
  match hi with
  | None => True
  | Some h => n <= h
  end.

Inductive lang : regex -> string -> Prop :=
| lang_lit p : lang (Lit p) p
| lang_rep cls lo hi s :
    all_in cls s = true -> lo <= String.length s -> below (String.length s) hi ->
    lang (Rep cls lo hi) s
| lang_cat r1 r2 s1 s2 : lang r1 s1 -> lang r2 s2 -> lang (Cat r1 r2) (s1 ++ s2)
| lang_alt_l r1 r2 s : lang r1 s -> lang (Alt r1 r2) s
| lang_alt_r r1 r2 s : lang r2 s -> lang (Alt r1 r2) s.

End Re.

(* ===================================================================== *)
(** * The address locator *)
(* ===================================================================== *)

Module AddressLocator.
Import PyStr Re.

Definition street_types : list string :=
  ["RD"; "ST"; "AVE"; "DR"; "LN"; "BLVD"; "ROAD"; "LANE"; "COURT"; "PL";
   "PLACE"; "TRAIL"; "WAY"; "CIR"; "CIRCLE"; "PKWY"; "PARKWAY"].

(** [[A-Z0-9\s\-]] *)
Definition street_char (c : ascii) : bool :=
  isupper c || isdigit c || isspace c || Ascii.eqb c "-"%char.

(** [\d{2,6}\s+[A-Z0-9\s\-]+(?:RD|ST|AVE|...|PKWY|PARKWAY)] *)
Definition address_regex : regex :=
  Cat (Rep isdigit 2 (Some 6))
      (Cat (Rep isspace 1 None)
           (Cat (Rep street_char 1 None)
                (alternation "RD" (tl street_types)))).

(** [re.search(<pattern>, deed_text.upper())] *)
Definition locate (deed_text : string) : option match_object :=
  search address_regex (upper deed_text).

End AddressLocator.

(* ===================================================================== *)
(** * The pipeline *)
(* ===================================================================== *)

Module Pipeline.
Import PyStr Py Re AddressLocator NameMatcher.

(** An entity of [doc.ents]: its text and its label. *)
Record entity : Type := { ent_text : string; ent_label : string }.

(** What [requests.get] returns: the status and the outcome of [.json()]. *)
Record http_response : Type := { status_code : Z; json : result value }.

(** A call to a collaborator. *)
Inductive call : Type :=
| CallOcr (image : list Byte.byte)
| CallNlp (text : string)
| CallGet (url : string) (headers params : list (string * string)).

Definition is_get (c : call) : bool :=
  match c with CallGet _ _ _ => true | _ => false end.

Record valuation : Type := {
  total_value : value;
  land_value : value;
  improvement_value : value
}.

(** The evidence of a verification (the body of the 200 response). *)
Record match_result : Type := {
  is_match : bool;
  deed_address_match : bool;
  extracted_deed_names : list string;
  extracted_id_names : list string;
  matched_name_from_deed : option string;
  matched_name_from_id : option string;
  owner_name_match_from_deed : bool;
  owner_name_match_from_id : bool;
  regrid_owner : value;
  regrid_address : string;
  valuation_of : valuation
}.

(** The ["error"] entry: a fixed text, or [str(e)]. *)
Inductive error_text : Type :=
| Message (text : string)
| StrOf (e : exn).

Inductive content : Type :=
| Failure (is_match : bool) (error : error_text)
| Evidence (r : match_result).

Record JSONResponse : Type := { status : Z; body : content }.

(** The ["match"] entry of a response. *)
Definition match_field (r : JSONResponse) : bool :=
  match body r with
  | Failure m _ => m
  | Evidence e => is_match e
  end.

(** The test of line 125 on a token that is a string. *)
Definition string_present (deed_text token : string) : bool :=
  negb (is_empty token) && contains (upper deed_text) (upper token).

(** A token line 125 can take: one that is falsy, or a string. *)
Definition harmless (token : value) : bool := negb (truthy token) || is_str token.

(** The four failures of the endpoint. *)
Definition address_not_found : JSONResponse :=
  {| status := 400; body := Failure false (Message "Address not found in deed text") |}.

Definition registry_unavailable : JSONResponse :=
  {| status := 500; body := Failure false (Message "Failed to fetch parcel from Regrid") |}.

Definition parcel_not_found : JSONResponse :=
  {| status := 404; body := Failure false (Message "No parcel found for the given address") |}.

Definition unexpected_failure (e : exn) : JSONResponse :=
  {| status := 500; body := Failure false (StrOf e) |}.

Section WithCollaborators.

(** The state of everything outside the engine. *)
Variable World : Type.

(** [pytesseract.image_to_string(Image.open(...))] *)
Variable image_to_string : list Byte.byte -> World -> result string * World.
(** [nlp(text).ents] *)
Variable nlp : string -> World -> result (list entity) * World.
(** [requests.get(url, headers=..., params=...)] *)
Variable requests_get :
  string -> list (string * string) -> list (string * string) ->
  World -> result http_response * World.
(** [fuzz.partial_ratio] *)
Variable partial_ratio : string -> string -> Z.
(** [os.getenv("REGRID_API_KEY")] *)
Variable API_KEY : option string.
(** How an f-string renders a value. *)
Variable format_value : value -> string.

(** A request runs on the world and on the log of the calls made so far. *)
Record state : Type := { world : World; calls : list call }.

Definition M (A : Type) : Type := state -> result A * state.

Definition ret {A} (a : A) : M A := fun st => (Return a, st).

Definition bind {A B} (c : M A) (f : A -> M B) : M B :=
  fun st =>
    match c st with
    | (Return a, st') => f a st'
    | (Raise e, st') => (Raise e, st')
    end.

Definition lift {A} (c : result A) : M A := fun st => (c, st).

(** [try: c except Exception as e: h(e)] *)
Definition try_except {A} (c : M A) (h : exn -> M A) : M A :=
  fun st =>
    match c st with
    | (Return a, st') => (Return a, st')
    | (Raise e, st') => h e st'
    end.

Definition perform {A} (c : call) (f : World -> result A * World) : M A :=
  fun st =>
    let (r, w) := f (world st) in
    (r, {| world := w; calls := calls st ++ [c] |}).

Local Notation "x <- c ;; k" := (bind c (fun x => k))
  (at level 61, c at next level, right associativity).

(** [extract_text_from_image(file_bytes)] *)
Definition extract_text_from_image (file_bytes : list Byte.byte) : M string :=
  perform (CallOcr file_bytes) (image_to_string file_bytes).

Definition is_person (e : entity) : bool :=
  String.eqb (ent_label e) "PERSON" && Nat.leb 2 (List.length (split (ent_text e))).

(** [extract_owners_with_spacy(text)] *)
Definition extract_owners_with_spacy (text : string) : M (list string) :=
  ents <- perform (CallNlp text) (nlp text) ;;
  ret (map (fun e => upper (ent_text e)) (filter is_person ents)).

Definition url : string := "https://app.regrid.com/api/v2/parcels/address".

Definition bearer : string :=
  ("Bearer " ++ match API_KEY with Some k => k | None => "None" end)%string.

Definition headers : list (string * string) :=
  [("Authorization", bearer); ("accept", "application/json")].

Definition params (extracted_address : string) : list (string * string) :=
  [("query", extracted_address); ("path", "/us/tx/dallas")].

(** Lines 107-111: the owner the registry records. *)
Definition owner_of (enhanced fields : value) : result value :=
  (has_override <-
     (if truthy enhanced then e0 <- item0 enhanced ;; str_in "eo_owner" e0
      else Return false) ;;
   if has_override then e0 <- item0 enhanced ;; get e0 "eo_owner" JNull
   else get fields "owner" (JStr ""))%res.

(** Line 112 *)
Definition address_of (fields : value) : result string :=
  (a <- get fields "address" (JStr "") ;;
   c <- get fields "scity" (JStr "") ;;
   z <- get fields "szip" (JStr "") ;;
   Return (format_value a ++ ", " ++ format_value c ++ ", " ++ format_value z)%string)%res.

(** Lines 114-115: [next((name for name in names if is_name_match(name, owner)), None)] *)
Definition first_matching (names : list string) (owner : value)
  : result (option string) :=
  next_where
    (fun name => is_name_match partial_ratio (JStr name) owner default_threshold)
    names.

(** Lines 117-123 *)
Definition address_tokens (fields : value) : result (list value) :=
  (t1 <- get fields "saddno" (JStr "") ;;
   t2 <- get fields "saddstr" (JStr "") ;;
   t3 <- get fields "saddsttyp" (JStr "") ;;
   t4 <- get fields "scity" (JStr "") ;;
   t5 <- get fields "szip5" (JStr "") ;;
   Return [t1; t2; t3; t4; t5])%res.

(** [token and token.upper() in deed_text_upper] *)
Definition token_present (deed_text_upper : string) (token : value) : result bool :=
  if truthy token then
    (t <- as_str token "upper" ;; Return (contains deed_text_upper (upper t)))%res
  else Return false.

(** Lines 124-126 *)
Definition reconcile (tokens : list value) (deed_text : string) : result bool :=
  let deed_text_upper := upper deed_text in
  (matched_tokens <- filter_r (token_present deed_text_upper) tokens ;;
   Return (Nat.leb 3 (List.length matched_tokens)))%res.

(** Lines 128-132 *)
Definition valuation_from (fields : value) : result valuation :=
  (t <- get fields "parval" (JNum 0) ;;
   l <- get fields "landval" (JNum 0) ;;
   i <- get fields "improvval" (JNum 0) ;;
   Return {| total_value := t; land_value := l; improvement_value := i |})%res.

Definition is_some {A} (o : option A) : bool :=
  match o with Some _ => true | None => false end.

(** Lines 134-136 *)
Definition fuse (deed_address_match : bool)
    (matched_deed_name matched_id_name : option string) : bool :=
  deed_address_match && (is_some matched_deed_name || is_some matched_id_name).

(** Line 99: [data.get("parcels", {}).get("features", [])] *)
Definition features_of (data : value) : result value :=
  (parcels <- get data "parcels" (JDict []) ;;
   get parcels "features" (JList []))%res.

(** Lines 98-151: from a 200 answer of the registry to the response. *)
Definition judge (deed_text : string) (deed_owner_names id_owner_names : list string)
    (response : http_response) : result JSONResponse :=
  (data <- json response ;;
   features <- features_of data ;;
   if negb (truthy features) then
     Return {| status := 404;
               body := Failure false (Message "No parcel found for the given address") |}
   else
     f0 <- item0 features ;;
     props <- get f0 "properties" (JDict []) ;;
     fields <- get props "fields" (JDict []) ;;
     enhanced <- get props "enhanced_ownership" (JList []) ;;
     regrid_owner <- owner_of enhanced fields ;;
     regrid_address <- address_of fields ;;
     matched_id_name <- first_matching id_owner_names regrid_owner ;;
     matched_deed_name <- first_matching deed_owner_names regrid_owner ;;
     address_tokens <- address_tokens fields ;;
     deed_address_match <- reconcile address_tokens deed_text ;;
     valuation <- valuation_from fields ;;
     let match_result := fuse deed_address_match matched_deed_name matched_id_name in
     Return {| status := 200;
               body := Evidence {|
                 is_match := match_result;
                 deed_address_match := deed_address_match;
                 extracted_deed_names := deed_owner_names;
                 extracted_id_names := id_owner_names;
                 matched_name_from_deed := matched_deed_name;
                 matched_name_from_id := matched_id_name;
                 owner_name_match_from_deed := is_some matched_deed_name;
                 owner_name_match_from_id := is_some matched_id_name;
                 regrid_owner := regrid_owner;
                 regrid_address := regrid_address;
                 valuation_of := valuation |} |})%res.

(** The body of the [try] block. *)
Definition verify_try (deed_bytes id_bytes : list Byte.byte) : M JSONResponse :=
  deed_text <- extract_text_from_image deed_bytes ;;
  id_text <- extract_text_from_image id_bytes ;;
  deed_owner_names <- extract_owners_with_spacy deed_text ;;
  id_owner_names <- extract_owners_with_spacy id_text ;;
  match locate deed_text with
  | None =>
      ret {| status := 400;
             body := Failure false (Message "Address not found in deed text") |}
  | Some address_match =>
      let extracted_address := group0 address_match in
      response <-
        perform (CallGet url headers (params extracted_address))
                (requests_get url headers (params extracted_address)) ;;
      if negb (status_code response =? 200)%Z then
        ret {| status := 500;
               body := Failure false (Message "Failed to fetch parcel from Regrid") |}
      else lift (judge deed_text deed_owner_names id_owner_names response)
  end.

(** [verify(title, id)], on the bytes read from the two uploads. *)
Definition verify (deed_bytes id_bytes : list Byte.byte) : M JSONResponse :=
  try_except (verify_try deed_bytes id_bytes)
    (fun e => ret {| status := 500; body := Failure false (StrOf e) |}).

(** The candidate names of a document, as line 43-47 filters them. *)
Definition names_of (ents : list entity) : list string :=
  map (fun e => upper (ent_text e)) (filter is_person ents).

(** Both documents read and their entities extracted, from world [w] to
    world [w']. *)
Definition extracted (deed_bytes id_bytes : list Byte.byte) (w : World)
    (deed_text id_text : string) (deed_names id_names : list string)
    (w' : World) : Prop :=
  exists w1 w2 w3 deed_ents id_ents,
    image_to_string deed_bytes w = (Return deed_text, w1) /\
    image_to_string id_bytes w1 = (Return id_text, w2) /\
    nlp deed_text w2 = (Return deed_ents, w3) /\
    nlp id_text w3 = (Return id_ents, w') /\
    deed_names = names_of deed_ents /\ id_names = names_of id_ents.

(** The calls of a request up to the address locator. *)
Definition reading_calls (deed_bytes id_bytes : list Byte.byte)
    (deed_text id_text : string) : list call :=
  [CallOcr deed_bytes; CallOcr id_bytes; CallNlp deed_text; CallNlp id_text].

(** The call to the registry for a located address. *)
Definition registry_call (m : match_object) : call :=
  CallGet url headers (params (group0 m)).

(** A call whose answer does not depend on the world it is made in. *)
Definition fixed {A} (f : World -> result A * World) : Prop :=
  forall w w', fst (f w) = fst (f w').

(** The three collaborators give fixed answers. *)
Definition fixed_collaborators : Prop :=
  (forall image, fixed (image_to_string image)) /\
  (forall text, fixed (nlp text)) /\
  (forall url headers params, fixed (requests_get url headers params)).

(** A computation that answers alike, and makes the same calls, whatever
    the world it starts in. *)
Definition world_blind {A} (c : M A) : Prop :=
  forall st st',
    calls st = calls st' ->
    fst (c st) = fst (c st') /\ calls (snd (c st)) = calls (snd (c st')).

(** The response of a request started in world [w]. *)
Definition respond (deed_bytes id_bytes : list Byte.byte) (w : World)
  : result JSONResponse * state :=
  verify deed_bytes id_bytes {| world := w; calls := [] |}.

End WithCollaborators.

End Pipeline.

(* ===================================================================== *)
(** * The scorer *)
(* ===================================================================== *)

(** Modelled from the spec: [fuzz.partial_ratio] belongs to the fuzzywuzzy
    package, which the repository imports and does not contain.  The spec
    calls it a substring-tolerant, edit-distance-based similarity ratio in
    the range 0-100.  The model follows the package on its pure-Python path,
    where the matcher is [difflib.SequenceMatcher] without junk (the
    [autojunk] heuristic only touches sequences of 200 elements and more and
    is left out), with exact rationals in place of floats. *)
Module Fuzz.

Definition block : Type := (nat * nat * nat)%type.

Definition block_size (b : block) : nat := snd b.

(** One pass of the inner loop of [find_longest_match]: [newj2len] for the
    element [ai], as a list indexed by [j].  [shifted] is the previous
    [j2len] moved one place right, so its entry [j] is [j2len.get(j-1, 0)]. *)
Fixpoint next_j2len (ai : ascii) (b : list ascii) (shifted : list nat)
    (j blo bhi : nat) : list nat :=
  match b, shifted with
  | bj :: b', p :: shifted' =>
      (if Ascii.eqb ai bj && Nat.leb blo j && Nat.ltb j bhi then S p else 0)
        :: next_j2len ai b' shifted' (S j) blo bhi
  | _, _ => []
  end.

(** [if k > bestsize: besti, bestj, bestsize = i-k+1, j-k+1, k], for the
    entries of [newj2len] in increasing [j]. *)
Fixpoint update_best (i : nat) (newj2len : list nat) (j : nat) (best : block) : block :=
  match newj2len with
  | [] => best
  | k :: rest =>
      update_best i rest (S j)
        (if Nat.ltb (block_size best) k then (i + 1 - k, j + 1 - k, k) else best)
  end.

(** The outer loop, over [a[i:ahi]]. *)
Fixpoint scan (a_from_i : list ascii) (i ahi : nat) (b : list ascii)
    (blo bhi : nat) (j2len : list nat) (best : block) : block :=
  match a_from_i with
  | [] => best
  | ai :: a' =>
      if Nat.ltb i ahi then
        let newj2len := next_j2len ai b (0 :: j2len) 0 blo bhi in
        scan a' (S i) ahi b blo bhi newj2len (update_best i newj2len 0 best)
      else best
  end.

(** [SequenceMatcher.find_longest_match(alo, ahi, blo, bhi)] *)
Definition find_longest_match (a b : list ascii) (alo ahi blo bhi : nat) : block :=
  scan (skipn alo a) alo ahi b blo bhi (repeat 0 (List.length b)) (alo, blo, 0).

(** The matching blocks of [a[alo:ahi]] against [b[blo:bhi]]: the longest
    match, the blocks on its left and the blocks on its right, in increasing
    order.  A call works on a window of [a] shorter than its caller's, so
    [fuel] as large as the window is enough. *)
Fixpoint blocks_between (fuel : nat) (a b : list ascii) (alo ahi blo bhi : nat)
  : list block :=
  match fuel with
  | O => []
  | S fuel' =>
      let '(i, j, k) := find_longest_match a b alo ahi blo bhi in
      if Nat.eqb k 0 then []
      else
        (if Nat.ltb alo i && Nat.ltb blo j
         then blocks_between fuel' a b alo i blo j else [])
        ++ (i, j, k)
        :: (if Nat.ltb (i + k) ahi && Nat.ltb (j + k) bhi
            then blocks_between fuel' a b (i + k) ahi (j + k) bhi else [])
  end.

(** Adjacent blocks collapsed, as at the end of [get_matching_blocks]. *)
Fixpoint collapse (cur : block) (rest : list block) : list block :=
  let '(i1, j1, k1) := cur in
  match rest with
  | [] => if Nat.eqb k1 0 then [] else [cur]
  | (i2, j2, k2) :: rest' =>
      if Nat.eqb (i1 + k1) i2 && Nat.eqb (j1 + k1) j2
      then collapse (i1, j1, k1 + k2) rest'
      else (if Nat.eqb k1 0 then [] else [cur]) ++ collapse (i2, j2, k2) rest'
  end.

(** [SequenceMatcher(None, a, b).get_matching_blocks()] *)
Definition get_matching_blocks (a b : list ascii) : list block :=
  let la := List.length a in
  let lb := List.length b in
  collapse (0, 0, 0) (blocks_between la a b 0 la 0 lb) ++ [(la, lb, 0)].

(** [SequenceMatcher(None, a, b).ratio()] *)
Definition ratio (a b : list ascii) : Q :=
  let matches := fold_right Nat.add 0 (map block_size (get_matching_blocks a b)) in
  let length := List.length a + List.length b in
  match length with
  | O => 1%Q
  | S _ => (Z.of_nat (2 * matches) # Pos.of_nat length)%Q
  end.

(** [utils.intr]: [int(round(x))], halves going to the even neighbour. *)
Definition intr (x : Q) : Z :=
  let n := Qnum x in
  let d := Z.pos (Qden x) in
  let fl := (n / d)%Z in
  let twice_rest := (2 * (n mod d))%Z in
  if (twice_rest <? d)%Z then fl
  else if (d <? twice_rest)%Z then (fl + 1)%Z
  else if Z.even fl then fl else (fl + 1)%Z.

Definition qmax (x y : Q) : Q := if Qle_bool x y then y else x.

(** The loop over the blocks: the ratio of [shorter] against the window of
    [longer] each block lines it up with; 100 as soon as one exceeds .995,
    else the largest, as a percentage. *)
Fixpoint best_window (shorter longer : list ascii) (blocks : list block)
    (scores : option Q) : Z :=
  match blocks with
  | [] => match scores with Some m => intr (100 * m)%Q | None => 0%Z end
  | (i, j, _) :: rest =>
      let long_start := j - i in
      let long_substr := firstn (List.length shorter) (skipn long_start longer) in
      let r := ratio shorter long_substr in
      if negb (Qle_bool r (995 # 1000)) then 100%Z
      else best_window shorter longer rest
             (Some match scores with Some m => qmax m r | None => r end)
  end.

(** [fuzz.partial_ratio(s1, s2)] on two strings: 100 when they are equal, 0
    when one is empty, else the best window. *)
Definition partial_ratio (s1 s2 : string) : Z :=
  if String.eqb s1 s2 then 100%Z
  else if PyStr.is_empty s1 || PyStr.is_empty s2 then 0%Z
  else
    let a := list_ascii_of_string s1 in
    let b := list_ascii_of_string s2 in
    let (shorter, longer) :=
      if Nat.leb (List.length a) (List.length b) then (a, b) else (b, a) in
    best_window shorter longer (get_matching_blocks shorter longer) None.

End Fuzz.

(* ===================================================================== *)
(** * The specification's wording *)
(* ===================================================================== *)

(** The definitions of this module follow the words of the specification,
    not the code; the theorems compare them with the code. *)
Module Spec.
Import PyStr Re AddressLocator.

(** "first character of each whitespace-separated word, order preserved":
    a character is an initial when it is not white space and stands at the
    start of the text or right after white space. *)
Fixpoint initials_scan (at_word_start : bool) (s : string) : string :=
  match s with
  | EmptyString => EmptyString
  | String c s' =>
      if isspace c then initials_scan true s'
      else if at_word_start then String c (initials_scan false s')
      else initials_scan false s'
  end.

Definition initials (name : string) : string := initials_scan true name.

(** "upper-cased": every letter of [a..z] replaced by the letter of [A..Z]
    at the same place of the alphabet, every other character kept. *)
Fixpoint translate (source target : string) (c : ascii) : ascii :=
  match source, target with
  | String x source', String y target' =>
      if Ascii.eqb c x then y else translate source' target' c
  | _, _ => c
  end.

Definition upper_letter (c : ascii) : ascii :=
  translate "abcdefghijklmnopqrstuvwxyz" "ABCDEFGHIJKLMNOPQRSTUVWXYZ" c.

Fixpoint uppercase (s : string) : string :=
  match s with
  | EmptyString => EmptyString
  | String c s' => String (upper_letter c) (uppercase s')
  end.

(** "trimmed": [t] is [s] without the white space at its two ends. *)
Definition is_trim_of (s t : string) : Prop :=
  exists left right,
    s = (left ++ t ++ right)%string /\
    all_in isspace left = true /\ all_in isspace right = true /\
    (forall c rest, t = String c rest -> isspace c = false) /\
    (forall rest c, t = (rest ++ String c EmptyString)%string -> isspace c = false).

(** The name matcher of section 4.2, on a candidate and an owner that may
    be absent. *)
Definition matches (score : string -> string -> Z)
    (candidate owner : option string) (threshold : Z) : bool :=
  match candidate, owner with
  | Some c, Some o =>
      if is_empty c || is_empty o then false
      else
        let c' := upper (strip c) in
        let o' := upper (strip o) in
        if (threshold <=? score c' o')%Z then true
        else String.eqb (initials c') (initials o')
  | _, _ => false
  end.

(** "a token is present if it is non-empty and its upper-cased form occurs
    as a substring anywhere in the deed's upper-cased full text" *)
Definition occurs_in (text sub : string) : Prop :=
  exists before after, text = (before ++ sub ++ after)%string.

Definition present (deed_text token : string) : Prop :=
  token <> EmptyString /\ occurs_in (upper deed_text) (upper token).

(** "Count present tokens": [n] of the tokens are present. *)
Inductive count_present (deed_text : string) : list string -> nat -> Prop :=
| count_none : count_present deed_text [] 0
| count_in token tokens n :
    present deed_text token -> count_present deed_text tokens n ->
    count_present deed_text (token :: tokens) (S n)
| count_out token tokens n :
    ~ present deed_text token -> count_present deed_text tokens n ->
    count_present deed_text (token :: tokens) n.

(** The address of section 4.1, read word by word: a house number of 2 to
    6 digits, one or more tokens of uppercase letters, digits and hyphens,
    and a street type of the vocabulary, separated by white space. *)
Definition is_house_number (t : string) : bool :=
  all_in isdigit t && Nat.leb 2 (String.length t) && Nat.leb (String.length t) 6.

Definition is_name_token (t : string) : bool :=
  all_in (fun c => isupper c || isdigit c || Ascii.eqb c "-"%char) t.

Definition is_street_type (t : string) : bool :=
  existsb (String.eqb t) street_types.

Definition tokenized_address (s : string) : bool :=
  String.eqb (strip s) s &&
  match split s with
  | number :: rest =>
      is_house_number number &&
      match rev rest with
      | street_type :: names =>
          is_street_type street_type &&
          negb (Nat.eqb (List.length names) 0) && forallb is_name_token names
      | [] => false
      end
  | [] => false
  end.

Fixpoint prefixes (s : string) : list string :=
  EmptyString ::
  match s with
  | EmptyString => []
  | String c s' => map (String c) (prefixes s')
  end.

(** The leftmost position of [s] where a tokenized address starts. *)
Fixpoint tokenized_search_from (pos : nat) (s : string) : option match_object :=
  match find tokenized_address (prefixes s) with
  | Some m => Some {| m_start := pos; group0 := m |}
  | None =>
      match s with
      | EmptyString => None
      | String _ s' => tokenized_search_from (S pos) s'
      end
  end.

Definition tokenized_locate (deed_text : string) : option match_object :=
  tokenized_search_from 0 (upper deed_text).

(** The address as the pattern has it: digits, white space, a run of street
    characters, and a street type closing the run. *)
Definition is_address (m : string) : Prop :=
  exists number gap run street_type,
    m = (number ++ gap ++ run ++ street_type)%string /\
    all_in isdigit number = true /\
    2 <= String.length number <= 6 /\
    all_in isspace gap = true /\ 1 <= String.length gap /\
    all_in street_char run = true /\ 1 <= String.length run /\
    In street_type street_types.

(** The error taxonomy of section 7. *)
Inductive error_kind : Type :=
| AddressNotFound
| RegistryUnavailable
| ParcelNotFound
| UnexpectedFailure.

(** The kind a response of the endpoint stands for: none for the evidence,
    [UnexpectedFailure] for [str(e)], and the kind its text names for the
    three fixed messages. *)
Definition kind_of (resp : Pipeline.JSONResponse) : option error_kind :=
  match Pipeline.body resp with
  | Pipeline.Evidence _ => None
  | Pipeline.Failure _ (Pipeline.StrOf _) => Some UnexpectedFailure
  | Pipeline.Failure _ (Pipeline.Message text) =>
      if String.eqb text "Address not found in deed text" then Some AddressNotFound
      else if String.eqb text "Failed to fetch parcel from Regrid"
      then Some RegistryUnavailable
      else if String.eqb text "No parcel found for the given address"
      then Some ParcelNotFound
      else None
  end.

End Spec.

(* ===================================================================== *)
(** * Test doubles *)
(* ===================================================================== *)

(** Collaborators with fixed answers, on a world that counts the calls. *)
Module Doubles.
Import PyStr Py Pipeline.

Definition World : Type := nat.

(** The scan is its own text. *)
Definition image_to_string (image : list Byte.byte) (w : World)
  : result string * World :=
  (Return (string_of_list_byte image), S w).

(** A scan nothing can be read from. *)
Definition image_to_string_failing (image : list Byte.byte) (w : World)
  : result string * World :=
  (Raise (Raised "cannot identify image file"), S w).

Fixpoint lookup_text (text : string) (table : list (string * list entity))
  : list entity :=
  match table with
  | [] => []
  | (t, ents) :: table' => if String.eqb text t then ents else lookup_text text table'
  end.

Definition nlp (table : list (string * list entity)) (text : string) (w : World)
  : result (list entity) * World :=
  (Return (lookup_text text table), S w).

Definition requests_get (answer : http_response) (url : string)
    (headers params : list (string * string)) (w : World)
  : result http_response * World :=
  (Return answer, S w).

Definition format_value (v : value) : string :=
  match v with
  | JStr s => s
  | JNull => "None"
  | _ => "?"
  end.

Definition person (name : string) : entity :=
  {| ent_text := name; ent_label := "PERSON" |}.

Definition deed_image : list Byte.byte :=
  list_byte_of_string "Warranty deed. Grantee John Smith, 123 Main St, Dallas".

Definition id_image : list Byte.byte :=
  list_byte_of_string "Driver license John A Smith".

Definition entities : list (string * list entity) :=
  [("Warranty deed. Grantee John Smith, 123 Main St, Dallas",
    [person "John Smith"; {| ent_text := "Dallas"; ent_label := "GPE" |}]);
   ("Driver license John A Smith", [person "John A Smith"])].

Definition parcel_fields : value :=
  JDict [("owner", JStr "SMITH JOHN"); ("address", JStr "123 MAIN ST");
         ("saddno", JStr "123"); ("saddstr", JStr "MAIN"); ("saddsttyp", JStr "ST");
         ("scity", JStr "DALLAS"); ("szip", JStr "75201-1234"); ("szip5", JStr "75201");
         ("parval", JNum 250000)].

Definition feature (owner_override : string) : value :=
  JDict [("properties",
          JDict [("fields", parcel_fields);
                 ("enhanced_ownership", JList [JDict [("eo_owner", JStr owner_override)]])])].

(** The same parcel with any value as its override owner. *)
Definition parcel_items : list (string * value) :=
  [("owner", JStr "SMITH JOHN"); ("address", JStr "123 MAIN ST");
   ("saddno", JStr "123"); ("saddstr", JStr "MAIN"); ("saddsttyp", JStr "ST");
   ("scity", JStr "DALLAS"); ("szip", JStr "75201-1234"); ("szip5", JStr "75201");
   ("parval", JNum 250000)].

Definition feature_owned_by (override : value) : value :=
  JDict [("properties",
          JDict [("fields", JDict parcel_items);
                 ("enhanced_ownership", JList [JDict [("eo_owner", override)]])])].

Definition parcels (features : list value) : value :=
  JDict [("parcels", JDict [("features", JList features)])].

Definition answer (data : value) : http_response :=
  {| status_code := 200; json := Return data |}.

(** A request with the doubles, the registry answering [response]. *)
Definition run (response : http_response) (deed id : list Byte.byte)
  : result JSONResponse * state World :=
  respond World image_to_string (nlp entities) (requests_get response)
          Fuzz.partial_ratio (Some "key") format_value deed id 0.

End Doubles.

(* ===================================================================== *)
(** * Facts about strings *)
(* ===================================================================== *)

Module StrFacts.
Import PyStr Py.

Lemma is_empty_true s : is_empty s = true <-> s = EmptyString.
Proof. destruct s; simpl; split; congruence. Qed.

Lemma is_empty_false s : is_empty s = false <-> s <> EmptyString.
Proof. destruct s; simpl; split; congruence. Qed.

Lemma append_empty_r (s : string) : (s ++ "")%string = s.
Proof. induction s; simpl; congruence. Qed.

Lemma append_assoc (a b c : string) : ((a ++ b) ++ c = a ++ (b ++ c))%string.
Proof. induction a; simpl; congruence. Qed.

Lemma append_snoc_nonempty (s : string) c : (s ++ String c "")%string <> EmptyString.
Proof. destruct s; discriminate. Qed.

Lemma length_append (a b : string) :
  String.length (a ++ b) = String.length a + String.length b.
Proof. induction a; simpl; congruence. Qed.

(** White-space splitting never yields an empty word. *)
Lemma split_from_words cur s w :
  In w (split_from cur s) -> w <> EmptyString.
Proof.
  revert cur; induction s as [|c s IH]; intros cur Hin; simpl in Hin.
  - destruct cur; simpl in Hin; [contradiction|].
    destruct Hin as [<-|[]]; discriminate.
  - destruct (isspace c).
    + destruct cur.
      * eauto.
      * destruct Hin as [<-|Hin]; [discriminate | eauto].
    + eauto.
Qed.

Lemma split_words s w : In w (split s) -> w <> EmptyString.
Proof. apply split_from_words. Qed.

(** Taking the first character of every word of a split cannot fail, and
    reads the characters that stand at a word start. *)
Lemma first_chars_of_split_from cur s :
  exists cs,
    map_r first_char (split_from cur s) = Return cs /\
    string_of_chars cs =
      match cur with
      | EmptyString => Spec.initials_scan true s
      | String a _ => String a (Spec.initials_scan false s)
      end.
Proof.
  revert cur; induction s as [|c s IH]; intros cur; simpl.
  - destruct cur; simpl; eexists; split; reflexivity.
  - destruct (isspace c) eqn:Hc.
    + destruct cur as [|a cur].
      * apply (IH EmptyString).
      * destruct (IH EmptyString) as (cs & Hcs & Hs).
        exists (a :: cs); simpl; rewrite Hcs; simpl; split; congruence.
    + destruct cur as [|a cur]; simpl.
      * apply (IH (String c EmptyString)).
      * apply (IH (String a (cur ++ String c EmptyString))).
Qed.

Lemma startswith_spec p s :
  startswith p s = true <-> exists rest, s = (p ++ rest)%string.
Proof.
  revert s; induction p as [|a p IH]; intros s; simpl.
  - split; eauto.
  - destruct s as [|b s].
    + split; [discriminate | intros (r & Hr); discriminate].
    + rewrite andb_true_iff, Ascii.eqb_eq, IH. split.
      * intros (-> & r & ->); eauto.
      * intros (r & Hr); injection Hr as -> ->; eauto.
Qed.

(** [sub in s] is raw substring containment. *)
Lemma contains_spec s sub :
  contains s sub = true <-> Spec.occurs_in s sub.
Proof.
  unfold Spec.occurs_in.
  induction s as [|c s IH]; simpl.
  - rewrite orb_false_r, startswith_spec. split.
    + intros (r & ->). exists EmptyString, r. reflexivity.
    + intros (pre & post & H). destruct pre; simpl in H.
      * eauto.
      * discriminate.
  - rewrite orb_true_iff, IH, startswith_spec. split.
    + intros [(r & ->)|(pre & post & ->)].
      * exists EmptyString, r; reflexivity.
      * exists (String c pre), post; reflexivity.
    + intros (pre & post & H). destruct pre as [|a pre]; simpl in H.
      * left; eauto.
      * injection H as -> ->. right; eauto.
Qed.

Lemma lstrip_spec s :
  exists left,
    s = (left ++ lstrip s)%string /\ Re.all_in isspace left = true /\
    forall c rest, lstrip s = String c rest -> isspace c = false.
Proof.
  induction s as [|c s (left & Hs & Hl & Hc)]; simpl.
  - exists EmptyString. repeat split. discriminate.
  - destruct (isspace c) eqn:Hsp.
    + exists (String c left). split; [simpl; f_equal; exact Hs|].
      split; [simpl; rewrite Hsp, Hl; reflexivity|exact Hc].
    + exists EmptyString. split; [reflexivity|]. split; [reflexivity|].
      intros c0 rest [= <- _]. exact Hsp.
Qed.

Lemma rstrip_spec s :
  exists right,
    s = (rstrip s ++ right)%string /\ Re.all_in isspace right = true /\
    forall rest c, rstrip s = (rest ++ String c EmptyString)%string -> isspace c = false.
Proof.
  induction s as [|c s (right & Hs & Hr & Hc)]; simpl.
  - exists EmptyString. repeat split. intros [|a rest] c; discriminate.
  - destruct (rstrip s) as [|a q] eqn:Hq.
    + simpl in Hs. subst s. destruct (isspace c) eqn:Hsp.
      * exists (String c right). split; [reflexivity|].
        split; [simpl; rewrite Hsp, Hr; reflexivity|].
        intros [|a rest] c0; discriminate.
      * exists right. split; [reflexivity|]. split; [exact Hr|].
        intros [|a rest] c0 H; simpl in H.
        -- injection H as <-. exact Hsp.
        -- destruct rest; discriminate.
    + exists right. split; [simpl; f_equal; exact Hs|]. split; [exact Hr|].
      intros [|b rest] c0 H; simpl in H; [discriminate|].
      injection H as -> H. eapply Hc. exact H.
Qed.

Lemma rstrip_head c s :
  isspace c = false -> exists rest, rstrip (String c s) = String c rest.
Proof.
  intros Hc. simpl. destruct (rstrip s); [rewrite Hc|]; eauto.
Qed.

(** [strip] removes the white space at the two ends and nothing else. *)
Lemma strip_is_trim s : Spec.is_trim_of s (strip s).
Proof.
  unfold strip, Spec.is_trim_of.
  destruct (lstrip_spec s) as (left & Hs & Hl & Hc).
  destruct (rstrip_spec (lstrip s)) as (right & Hs' & Hr & Hc').
  exists left, right. repeat split; try assumption.
  - rewrite <- Hs'. exact Hs.
  - intros c rest H. destruct (lstrip s) as [|a q] eqn:Hq; [discriminate|].
    pose proof (Hc a q eq_refl) as Ha.
    destruct (rstrip_head a q Ha) as (rest' & Hrest). congruence.
Qed.

Lemma upper_char_letter c : upper_char c = Spec.upper_letter c.
Proof. destruct c as [[] [] [] [] [] [] [] []]; reflexivity. Qed.

(** [upper] replaces the letters a..z by A..Z and keeps the rest. *)
Lemma upper_is_uppercase s : upper s = Spec.uppercase s.
Proof.
  induction s as [|c s IH]; simpl; [reflexivity|].
  rewrite upper_char_letter, IH. reflexivity.
Qed.

Lemma upper_append a b : upper (a ++ b) = (upper a ++ upper b)%string.
Proof. induction a; simpl; congruence. Qed.

Lemma upper_length s : String.length (upper s) = String.length s.
Proof. induction s; simpl; congruence. Qed.

End StrFacts.

(* ===================================================================== *)
(** * The scorer of the model *)
(* ===================================================================== *)

Module FuzzFacts.
Import Fuzz.

(** A block that is empty, or lies inside [a[alo:ahi]]. *)
Local Abbreviation inside alo ahi best :=
  (block_size best = 0 \/
   (alo <= fst (fst best) /\ fst (fst best) + block_size best <= ahi)).

Lemma next_j2len_bound ai bound b :
  forall shifted j blo bhi,
    Forall (fun k => k <= bound) shifted ->
    Forall (fun k => k <= S bound) (next_j2len ai b shifted j blo bhi).
Proof.
  induction b as [|bj b IH]; intros shifted j blo bhi Hs; simpl.
  - constructor.
  - destruct shifted as [|p shifted]; [constructor|].
    inversion Hs; subst. cbv beta in *. constructor; [|apply IH; assumption].
    destruct (_ && _); lia.
Qed.

Lemma update_best_inside alo ahi i row :
  forall j best,
    alo <= i -> i < ahi ->
    Forall (fun k => k <= i + 1 - alo) row ->
    inside alo ahi best -> inside alo ahi (update_best i row j best).
Proof.
  induction row as [|k row IH]; intros j best Hlo Hhi Hrow Hbest; simpl.
  - exact Hbest.
  - inversion Hrow; subst. cbv beta in *. apply IH; try assumption.
    destruct (Nat.ltb (block_size best) k) eqn:Hk; [|exact Hbest].
    apply Nat.ltb_lt in Hk. right. unfold block_size. simpl. lia.
Qed.

Lemma scan_inside alo ahi b blo bhi a' :
  forall i j2len best,
    alo <= i ->
    Forall (fun k => k <= i - alo) j2len ->
    inside alo ahi best ->
    inside alo ahi (scan a' i ahi b blo bhi j2len best).
Proof.
  induction a' as [|ai a' IH]; intros i j2len best Hlo Hrow Hbest; simpl.
  - exact Hbest.
  - destruct (Nat.ltb i ahi) eqn:Hi; [|exact Hbest].
    apply Nat.ltb_lt in Hi.
    assert (Hnew : Forall (fun k => k <= S (i - alo))
                     (next_j2len ai b (0 :: j2len) 0 blo bhi)).
    { apply next_j2len_bound. constructor; [lia|exact Hrow]. }
    apply IH.
    + lia.
    + eapply Forall_impl; [|exact Hnew]. cbv beta. intros; lia.
    + apply update_best_inside; try assumption.
      eapply Forall_impl; [|exact Hnew]. cbv beta. intros; lia.
Qed.

(** The longest match lies inside the window of [a] it is sought in. *)
Lemma find_longest_match_inside a b alo ahi blo bhi :
  inside alo ahi (find_longest_match a b alo ahi blo bhi).
Proof.
  unfold find_longest_match. apply scan_inside.
  - lia.
  - apply Forall_forall. intros k Hk. apply repeat_spec in Hk. lia.
  - left. reflexivity.
Qed.

Lemma find_longest_match_empty a b alo ahi blo bhi :
  ahi <= alo -> find_longest_match a b alo ahi blo bhi = (alo, blo, 0).
Proof.
  intros H. unfold find_longest_match.
  destruct (skipn alo a) as [|ai a']; simpl; [reflexivity|].
  destruct (Nat.ltb alo ahi) eqn:Hlt; [|reflexivity].
  apply Nat.ltb_lt in Hlt. lia.
Qed.

Lemma blocks_between_step fuel a b alo ahi blo bhi :
  blocks_between (S fuel) a b alo ahi blo bhi =
  let '(i, j, k) := find_longest_match a b alo ahi blo bhi in
  if Nat.eqb k 0 then []
  else
    (if Nat.ltb alo i && Nat.ltb blo j
     then blocks_between fuel a b alo i blo j else [])
    ++ (i, j, k)
    :: (if Nat.ltb (i + k) ahi && Nat.ltb (j + k) bhi
        then blocks_between fuel a b (i + k) ahi (j + k) bhi else []).
Proof. reflexivity. Qed.

(** Fuel as large as the window of [a] is enough: more changes nothing. *)
Lemma blocks_between_fuel a b :
  forall fuel fuel' alo ahi blo bhi,
    ahi - alo <= fuel -> ahi - alo <= fuel' ->
    blocks_between fuel a b alo ahi blo bhi
    = blocks_between fuel' a b alo ahi blo bhi.
Proof.
  assert (Hempty : forall fuel alo ahi blo bhi,
             ahi <= alo -> blocks_between fuel a b alo ahi blo bhi = []).
  { intros [|fuel] alo ahi blo bhi H; [reflexivity|].
    rewrite blocks_between_step, find_longest_match_empty by exact H. reflexivity. }
  induction fuel as [|fuel IH]; intros fuel' alo ahi blo bhi H H'.
  - rewrite !Hempty by lia. reflexivity.
  - destruct fuel' as [|fuel']; [rewrite !Hempty by lia; reflexivity|].
    rewrite !blocks_between_step.
    pose proof (find_longest_match_inside a b alo ahi blo bhi) as Hin.
    destruct (find_longest_match a b alo ahi blo bhi) as [[i j] k].
    unfold block_size in Hin. simpl in Hin.
    destruct (Nat.eqb k 0) eqn:Hk; [reflexivity|].
    apply Nat.eqb_neq in Hk. destruct Hin as [Hin|(Hlo & Hhi)]; [contradiction|].
    rewrite (IH fuel' alo i blo j) by lia.
    rewrite (IH fuel' (i + k) ahi (j + k) bhi) by lia.
    reflexivity.
Qed.

Lemma get_matching_blocks_fuel a b fuel :
  List.length a <= fuel ->
  collapse (0, 0, 0)
    (blocks_between fuel a b 0 (List.length a) 0 (List.length b))
  ++ [(List.length a, List.length b, 0)]
  = get_matching_blocks a b.
Proof.
  intros H. unfold get_matching_blocks.
  rewrite (blocks_between_fuel a b fuel (List.length a)) by lia. reflexivity.
Qed.

Lemma ratio_nonneg a b : (0 <= Qnum (ratio a b))%Z.
Proof.
  unfold ratio. destruct (List.length a + List.length b); simpl; lia.
Qed.

Lemma intr_floor x :
  intr x = (Qnum x / Z.pos (Qden x))%Z \/ intr x = (Qnum x / Z.pos (Qden x) + 1)%Z.
Proof.
  unfold intr. destruct (_ <? _)%Z; [tauto|]. destruct (_ <? _)%Z; [tauto|].
  destruct (Z.even _); tauto.
Qed.

(** A percentage of at most 99.5 rounds into 0..100. *)
Lemma intr_percent m :
  (0 <= Qnum m)%Z -> Qle_bool m (995 # 1000) = true ->
  (0 <= intr (100 * m)%Q <= 100)%Z.
Proof.
  intros Hpos Hle. unfold Qle_bool in Hle. cbn [Qnum Qden] in Hle.
  apply Z.leb_le in Hle.
  assert (Hnum : Qnum (100 * m)%Q = (100 * Qnum m)%Z) by reflexivity.
  assert (Hden : Qden (100 * m)%Q = Qden m) by reflexivity.
  assert (Hfl : (0 <= 100 * Qnum m / Z.pos (Qden m) <= 99)%Z).
  { split; [apply Z.div_pos; lia|].
    assert ((100 * Qnum m / Z.pos (Qden m) < 100)%Z); [|lia].
    apply Z.div_lt_upper_bound; lia. }
  destruct (intr_floor (100 * m)%Q) as [H|H]; rewrite H, Hnum, Hden; lia.
Qed.

Lemma best_window_range shorter longer blocks :
  forall scores,
    match scores with
    | Some m => (0 <= Qnum m)%Z /\ Qle_bool m (995 # 1000) = true
    | None => True
    end ->
    (0 <= best_window shorter longer blocks scores <= 100)%Z.
Proof.
  induction blocks as [|[[i j] k] blocks IH]; intros scores Hs; simpl.
  - destruct scores as [m|]; [|lia]. apply intr_percent; tauto.
  - set (r := ratio shorter _).
    destruct (Qle_bool r (995 # 1000)) eqn:Hr; simpl; [|lia].
    apply IH. destruct scores as [m|].
    + unfold qmax. destruct (Qle_bool m r); [|exact Hs].
      split; [apply ratio_nonneg|exact Hr].
    + split; [apply ratio_nonneg|exact Hr].
Qed.

(** The score is a percentage. *)
Lemma partial_ratio_range s1 s2 : (0 <= partial_ratio s1 s2 <= 100)%Z.
Proof.
  unfold partial_ratio.
  destruct (String.eqb s1 s2); [lia|].
  destruct (_ || _); [lia|].
  destruct (Nat.leb _ _); apply best_window_range; exact I.
Qed.

(** On equal strings the score is 100, on an empty string against another
    it is 0. *)
Lemma partial_ratio_same s : partial_ratio s s = 100%Z.
Proof. unfold partial_ratio. rewrite String.eqb_refl. reflexivity. Qed.

End FuzzFacts.

(* ===================================================================== *)
(** * The name matcher and candidate selection *)
(* ===================================================================== *)

Module NameMatcherFacts.
Import PyStr Py NameMatcher StrFacts.

Lemma initials_ok name : initials name = Return (Spec.initials name).
Proof.
  unfold initials, split, Spec.initials.
  destruct (first_chars_of_split_from EmptyString name) as (cs & -> & <-).
  reflexivity.
Qed.

Lemma truthy_str s : truthy (JStr s) = negb (is_empty s).
Proof. reflexivity. Qed.

(** The matcher on two strings, with the initials read off the text. *)
Lemma is_name_match_on_strings score (a b : string) threshold :
  is_name_match score (JStr a) (JStr b) threshold =
  Return (Spec.matches score (Some a) (Some b) threshold).
Proof.
  unfold is_name_match, Spec.matches; simpl.
  destruct (is_empty a), (is_empty b); simpl; try reflexivity.
  rewrite Z.geb_leb.
  destruct (threshold <=? _)%Z; [reflexivity|].
  rewrite !initials_ok. reflexivity.
Qed.

Lemma next_where_find {A} (p : A -> result bool) (q : A -> bool) xs :
  (forall x, In x xs -> p x = Return (q x)) ->
  next_where p xs = Return (find q xs).
Proof.
  induction xs as [|x xs IH]; intros Hp; simpl.
  - reflexivity.
  - rewrite (Hp x (or_introl eq_refl)); simpl.
    destruct (q x); [reflexivity|].
    apply IH. intros y Hy. apply Hp. right; exact Hy.
Qed.

(** [find] returns the first element that passes, and only it. *)
Lemma find_first {A} (q : A -> bool) xs x :
  find q xs = Some x <->
  exists before after,
    xs = before ++ x :: after /\ q x = true /\
    forall y, In y before -> q y = false.
Proof.
  induction xs as [|a xs IH]; simpl.
  - split; [discriminate|]. intros (pre & post & H & _). destruct pre; discriminate.
  - destruct (q a) eqn:Ha.
    + split.
      * intros [= <-]. exists [], xs. repeat split; auto. intros y [].
      * intros (pre & post & H & Hx & Hpre). destruct pre as [|b pre]; simpl in H.
        -- injection H as -> _. reflexivity.
        -- injection H as -> _. rewrite (Hpre b (or_introl eq_refl)) in Ha. discriminate.
    + rewrite IH. split.
      * intros (pre & post & -> & Hx & Hpre). exists (a :: pre), post.
        repeat split; auto. intros y [<-|Hy]; auto.
      * intros (pre & post & H & Hx & Hpre). destruct pre as [|b pre]; simpl in H.
        -- injection H as -> _. congruence.
        -- injection H as -> ->. exists pre, post. repeat split; auto.
           intros y Hy. apply Hpre. right; exact Hy.
Qed.

Lemma find_none_iff {A} (q : A -> bool) xs :
  find q xs = None <-> forall y, In y xs -> q y = false.
Proof.
  induction xs as [|a xs IH]; simpl.
  - split; [intros _ y []|reflexivity].
  - destruct (q a) eqn:Ha.
    + split; [discriminate|]. intros H. rewrite (H a (or_introl eq_refl)) in Ha. discriminate.
    + rewrite IH. split.
      * intros H y [<-|Hy]; auto.
      * intros H y Hy. apply H. right; exact Hy.
Qed.

(** C3. On a candidate and a registry owner that are strings or absent,
    [is_name_match] returns false when either is empty or absent; otherwise
    it trims and upper-cases both, returns true when the partial-ratio score
    reaches the threshold (70 by default), and else returns whether the two
    strings of initials (first character of each word, in order) are equal.
    This holds for every scorer; the scorer of the model stays within
    0..100.  Trimming removes exactly the white space at the two ends and
    upper-casing turns exactly the letters a..z into A..Z: with a scorer
    that only tells equal strings apart, a padded lower-case name matches
    its upper-case form in the fuzzy tier, and two names that differ only by
    case have the same initials. *)
Theorem is_name_match_spec :
  forall score (candidate owner : option string) threshold,
    is_name_match score (of_option candidate) (of_option owner) threshold
    = Return (Spec.matches score candidate owner threshold)
    /\ default_threshold = 70%Z
    /\ (forall s, Spec.is_trim_of s (strip s))
    /\ (forall a b, (0 <= Fuzz.partial_ratio a b <= 100)%Z)
    /\ (forall s, upper s = Spec.uppercase s)
    /\ (forall a b,
          Spec.matches score (Some a) (Some b) threshold
          = if is_empty a || is_empty b then false
            else if (threshold <=?
                     score (Spec.uppercase (strip a)) (Spec.uppercase (strip b)))%Z
                 then true
                 else String.eqb (Spec.initials (Spec.uppercase (strip a)))
                                 (Spec.initials (Spec.uppercase (strip b))))
    /\ is_name_match (fun a b => if String.eqb a b then 100%Z else 0%Z)
         (JStr "  john smith") (JStr "John Smith ") default_threshold = Return true
    /\ is_name_match (fun _ _ => 0%Z)
         (JStr "john a. smith") (JStr "JANE ANN SVENSSON") default_threshold
       = Return true
    /\ is_name_match (fun _ _ => 0%Z)
         (JStr "john smith") (JStr "SMITH JOHN") default_threshold = Return false.
Proof.
  intros score candidate owner threshold.
  repeat match goal with |- _ /\ _ => split end;
    try (vm_compute; reflexivity).
  - destruct candidate as [a|], owner as [b|]; simpl.
    + apply is_name_match_on_strings.
    + unfold is_name_match; simpl. rewrite orb_true_r. reflexivity.
    + reflexivity.
    + reflexivity.
  - apply strip_is_trim.
  - apply FuzzFacts.partial_ratio_range.
  - apply upper_is_uppercase.
  - intros a b. unfold Spec.matches. rewrite !upper_is_uppercase. reflexivity.
Qed.

(** C10. [is_name_match] is total on strings: the words of a white-space
    split are never empty, so taking their first characters never raises,
    and the matcher returns a boolean on every pair of strings. *)
Theorem is_name_match_total :
  (forall s w, In w (split s) -> exists c, first_char w = Return c)
  /\ (forall s, exists i, initials s = Return i)
  /\ (forall score (ocr_name regrid_name : string) threshold,
        exists b : bool,
          is_name_match score (JStr ocr_name) (JStr regrid_name) threshold = Return b).
Proof.
  split; [|split].
  - intros s w Hw. apply split_words in Hw.
    destruct w as [|c w]; [congruence|]. exists c; reflexivity.
  - intros s. eexists. apply initials_ok.
  - intros score a b t. eexists. apply is_name_match_on_strings.
Qed.

End NameMatcherFacts.

(* ===================================================================== *)
(** * Present tokens *)
(* ===================================================================== *)

Module ReconcilerFacts.
Import PyStr Py Pipeline StrFacts.

Lemma token_present_string deed_text token :
  token_present (upper deed_text) (JStr token)
  = Return (string_present deed_text token).
Proof.
  unfold token_present, string_present; simpl.
  destruct (is_empty token); reflexivity.
Qed.

Lemma string_present_iff deed_text token :
  string_present deed_text token = true <-> Spec.present deed_text token.
Proof.
  unfold string_present, Spec.present.
  rewrite andb_true_iff, negb_true_iff, is_empty_false, contains_spec. tauto.
Qed.

Lemma matched_string_tokens deed_text tokens :
  filter_r (token_present (upper deed_text)) (map JStr tokens)
  = Return (map JStr (filter (string_present deed_text) tokens)).
Proof.
  induction tokens as [|t ts IH]; simpl; [reflexivity|].
  rewrite token_present_string. simpl. rewrite IH. simpl.
  destruct (string_present deed_text t); reflexivity.
Qed.

(** The count of present tokens exists and is the one the code computes. *)
Lemma count_present_filter deed_text tokens :
  Spec.count_present deed_text tokens
    (List.length (filter (string_present deed_text) tokens)).
Proof.
  induction tokens as [|t ts IH]; simpl; [constructor|].
  destruct (string_present deed_text t) eqn:Ht; simpl.
  - apply Spec.count_in; [apply string_present_iff; exact Ht|exact IH].
  - apply Spec.count_out; [|exact IH].
    intros H. apply string_present_iff in H. congruence.
Qed.

Lemma count_present_unique deed_text tokens n :
  Spec.count_present deed_text tokens n ->
  n = List.length (filter (string_present deed_text) tokens).
Proof.
  induction 1 as [|t ts n Hp _ IH|t ts n Hp _ IH]; simpl.
  - reflexivity.
  - apply string_present_iff in Hp. rewrite Hp. simpl. congruence.
  - destruct (string_present deed_text t) eqn:Ht; [|exact IH].
    apply string_present_iff in Ht. contradiction.
Qed.

End ReconcilerFacts.

(* ===================================================================== *)
(** * The pipeline, stage by stage *)
(* ===================================================================== *)

Module PipelineFacts.
Import PyStr Py Re AddressLocator NameMatcher Pipeline StrFacts NameMatcherFacts
  ReconcilerFacts.

Lemma bind_return {A B} (c : result A) (f : A -> result B) b :
  Res.bind c f = Return b -> exists a, c = Return a /\ f a = Return b.
Proof. destruct c; simpl; [eauto | discriminate]. Qed.

(** Splits a hypothesis [x <- c ;; k = Return b]. *)
Ltac unbind H :=
  let a := fresh "v" in
  let Ha := fresh "Hv" in
  apply bind_return in H; destruct H as (a & Ha & H).

Section WithCollaborators.

Variable World : Type.
Variable image_to_string : list Byte.byte -> World -> result string * World.
Variable nlp : string -> World -> result (list entity) * World.
Variable requests_get :
  string -> list (string * string) -> list (string * string) ->
  World -> result http_response * World.
Variable partial_ratio : string -> string -> Z.
Variable API_KEY : option string.
Variable format_value : value -> string.

Local Abbreviation respond :=
  (respond World image_to_string nlp requests_get partial_ratio API_KEY format_value).
Local Abbreviation extracted := (extracted World image_to_string nlp).
Local Abbreviation judge := (judge partial_ratio format_value).
Local Abbreviation first_matching := (first_matching partial_ratio).
Local Abbreviation registry_call := (registry_call API_KEY).

(** What [judge] can return: the 404 answer, or the evidence, computed
    stage by stage from the first feature. *)
Lemma judge_cases deed_text deed_names id_names response resp :
  judge deed_text deed_names id_names response = Return resp ->
  exists data features,
    json response = Return data /\ features_of data = Return features /\
    ((truthy features = false /\
      resp = {| status := 404;
                body := Failure false (Message "No parcel found for the given address") |})
     \/
     (truthy features = true /\
      exists f0 props fields enhanced tokens ev,
        item0 features = Return f0 /\
        get f0 "properties" (JDict []) = Return props /\
        get props "fields" (JDict []) = Return fields /\
        get props "enhanced_ownership" (JList []) = Return enhanced /\
        owner_of enhanced fields = Return (regrid_owner ev) /\
        address_of format_value fields = Return (regrid_address ev) /\
        first_matching id_names (regrid_owner ev) = Return (matched_name_from_id ev) /\
        first_matching deed_names (regrid_owner ev) = Return (matched_name_from_deed ev) /\
        address_tokens fields = Return tokens /\
        reconcile tokens deed_text = Return (deed_address_match ev) /\
        valuation_from fields = Return (valuation_of ev) /\
        is_match ev = fuse (deed_address_match ev) (matched_name_from_deed ev)
                           (matched_name_from_id ev) /\
        owner_name_match_from_deed ev = is_some (matched_name_from_deed ev) /\
        owner_name_match_from_id ev = is_some (matched_name_from_id ev) /\
        extracted_deed_names ev = deed_names /\
        extracted_id_names ev = id_names /\
        resp = {| status := 200; body := Evidence ev |})).
Proof.
  unfold Pipeline.judge. intros H.
  unbind H. unbind H. exists v, v0. split; [assumption|]. split; [assumption|].
  destruct (truthy v0) eqn:Ht; simpl in H.
  - right. split; [reflexivity|].
    do 11 unbind H. injection H as <-.
    eexists v1, v2, v3, v4, v9, _.
    repeat match goal with |- _ /\ _ => split end.
    17: reflexivity.
    all: simpl; try eassumption; reflexivity.
  - left. injection H as <-. split; reflexivity.
Qed.

Ltac run_pipeline :=
  cbv beta delta [Pipeline.respond verify try_except verify_try bind lift ret
    extract_text_from_image extract_owners_with_spacy perform names_of];
  simpl.

(** Every request is answered, in one of four ways: an exception turned
    into a 500; no address, hence a 400 before any registry call; a registry
    status other than 200, hence the other 500; or whatever [judge] makes of
    the registry's answer. *)
Lemma respond_cases deed id w :
  exists resp st,
    respond deed id w = (Return resp, st) /\
    ((exists e, resp = unexpected_failure e) \/
     (exists deed_text id_text deed_names id_names w4,
        extracted deed id w deed_text id_text deed_names id_names w4 /\
        ((locate deed_text = None /\ resp = address_not_found /\
          st = {| world := w4; calls := reading_calls deed id deed_text id_text |})
         \/
         (exists m response w5,
            locate deed_text = Some m /\
            requests_get url (headers API_KEY) (params (group0 m)) w4
              = (Return response, w5) /\
            st = {| world := w5;
                    calls := reading_calls deed id deed_text id_text
                             ++ [registry_call m] |} /\
            ((status_code response <> 200%Z /\ resp = registry_unavailable) \/
             (status_code response = 200%Z /\
              judge deed_text deed_names id_names response = Return resp)))))).
Proof.
  run_pipeline.
  destruct (image_to_string deed w) as [[deed_text|e] w1] eqn:H1; simpl;
    [|eexists _, _; split; [reflexivity|left; eexists; reflexivity]].
  destruct (image_to_string id w1) as [[id_text|e] w2] eqn:H2; simpl;
    [|eexists _, _; split; [reflexivity|left; eexists; reflexivity]].
  destruct (nlp deed_text w2) as [[deed_ents|e] w3] eqn:H3; simpl;
    [|eexists _, _; split; [reflexivity|left; eexists; reflexivity]].
  destruct (nlp id_text w3) as [[id_ents|e] w4] eqn:H4; simpl;
    [|eexists _, _; split; [reflexivity|left; eexists; reflexivity]].
  assert (Hex : extracted deed id w deed_text id_text
                  (names_of deed_ents) (names_of id_ents) w4)
    by (exists w1, w2, w3, deed_ents, id_ents; repeat split; assumption).
  destruct (locate deed_text) as [m|] eqn:Hm; simpl.
  - destruct (requests_get _ _ _ w4) as [[response|e] w5] eqn:H5; simpl;
      [|eexists _, _; split; [reflexivity|left; eexists; reflexivity]].
    destruct (status_code response =? 200)%Z eqn:Hs; simpl.
    + apply Z.eqb_eq in Hs.
      destruct (Pipeline.judge _ _ _ _ _ response) as [resp|e] eqn:Hj; simpl.
      * eexists _, _; split; [reflexivity|]. right.
        eexists _, _, _, _, _; split; [exact Hex|]. right.
        eexists _, _, _; repeat split; try eassumption. right. split; assumption.
      * eexists _, _; split; [reflexivity|left; eexists; reflexivity].
    + apply Z.eqb_neq in Hs.
      eexists _, _; split; [reflexivity|]. right.
      eexists _, _, _, _, _; split; [exact Hex|]. right.
      eexists _, _, _; repeat split; try eassumption. left. split; [assumption|reflexivity].
  - eexists _, _; split; [reflexivity|]. right.
    eexists _, _, _, _, _; split; [exact Hex|]. left. repeat split. exact Hm.
Qed.

(** The same request, read forwards. *)
Lemma respond_no_address deed id w deed_text id_text deed_names id_names w4 :
  extracted deed id w deed_text id_text deed_names id_names w4 ->
  locate deed_text = None ->
  respond deed id w =
    (Return address_not_found,
     {| world := w4; calls := reading_calls deed id deed_text id_text |}).
Proof.
  intros (w1 & w2 & w3 & e1 & e2 & H1 & H2 & H3 & H4 & -> & ->) Hm.
  run_pipeline. rewrite H1; simpl. rewrite H2; simpl. rewrite H3; simpl.
  rewrite H4; simpl. rewrite Hm; simpl. reflexivity.
Qed.

Lemma respond_with_registry deed id w deed_text id_text deed_names id_names w4
    m response w5 :
  extracted deed id w deed_text id_text deed_names id_names w4 ->
  locate deed_text = Some m ->
  requests_get url (headers API_KEY) (params (group0 m)) w4 = (Return response, w5) ->
  respond deed id w =
    (Return
       (if negb (status_code response =? 200)%Z then registry_unavailable
        else match judge deed_text deed_names id_names response with
             | Return resp => resp
             | Raise e => unexpected_failure e
             end),
     {| world := w5;
        calls := reading_calls deed id deed_text id_text ++ [registry_call m] |}).
Proof.
  intros (w1 & w2 & w3 & e1 & e2 & H1 & H2 & H3 & H4 & -> & ->) Hm H5.
  run_pipeline. rewrite H1; simpl. rewrite H2; simpl. rewrite H3; simpl.
  rewrite H4; simpl. rewrite Hm; simpl. rewrite H5; simpl.
  destruct (status_code response =? 200)%Z; simpl; [|reflexivity].
  destruct (Pipeline.judge _ _ _ _ _ response); reflexivity.
Qed.

(** ** Decision fusion *)

(** C1. Whenever a request reaches decision fusion, that is whenever the
    response carries the evidence, the verdict is the address match AND
    (name match from the deed OR name match from the ID), the two name flags
    saying whether a name was selected.  So a true verdict needs the address
    and one name; the address with the ID name alone gives true; without the
    address the verdict is false whatever the names. *)
Theorem verdict_is_fusion :
  forall deed id w resp st ev,
    respond deed id w = (Return resp, st) ->
    body resp = Evidence ev ->
    is_match ev =
      deed_address_match ev
      && (owner_name_match_from_deed ev || owner_name_match_from_id ev)
    /\ owner_name_match_from_deed ev = is_some (matched_name_from_deed ev)
    /\ owner_name_match_from_id ev = is_some (matched_name_from_id ev)
    /\ match_field resp = is_match ev
    /\ (is_match ev = true ->
        deed_address_match ev = true /\
        (owner_name_match_from_deed ev = true \/ owner_name_match_from_id ev = true))
    /\ (deed_address_match ev = true -> owner_name_match_from_deed ev = false ->
        owner_name_match_from_id ev = true -> is_match ev = true)
    /\ (deed_address_match ev = false -> is_match ev = false).
Proof.
  intros deed id w resp st ev Hrun Hbody.
  assert (Hfuse : is_match ev = fuse (deed_address_match ev)
                    (matched_name_from_deed ev) (matched_name_from_id ev)
                  /\ owner_name_match_from_deed ev = is_some (matched_name_from_deed ev)
                  /\ owner_name_match_from_id ev = is_some (matched_name_from_id ev)).
  { destruct (respond_cases deed id w) as (resp' & st' & Hrun' & Hcases).
    rewrite Hrun in Hrun'. injection Hrun' as <- <-.
    destruct Hcases as [(e & ->)|(dt & it & dn & idn & w4 & _ & [(_ & -> & _)|Hreg])];
      try discriminate.
    destruct Hreg as (m & response & w5 & _ & _ & _ & [(_ & ->)|(_ & Hj)]);
      try discriminate.
    apply judge_cases in Hj.
    destruct Hj as (data & features & _ & _ & [(_ & ->)|(_ & Hev)]); try discriminate.
    destruct Hev as (f0 & props & fields & enh & toks & ev' & Hev).
    decompose [and] Hev. subst resp. simpl in Hbody. injection Hbody as <-.
    auto. }
  destruct Hfuse as (Hm & Hd & Hi). unfold fuse in Hm. rewrite <- Hd, <- Hi in Hm.
  repeat split; try assumption.
  - unfold match_field. rewrite Hbody. reflexivity.
  - rewrite Hm in H. apply andb_true_iff in H. tauto.
  - rewrite Hm in H. apply andb_true_iff in H. destruct H as [_ H].
    apply orb_true_iff in H. exact H.
  - intros Ha Hdn Hin. rewrite Hm, Ha, Hdn, Hin. reflexivity.
  - intros Ha. rewrite Hm, Ha. reflexivity.
Qed.

(** ** Errors *)

(** The taxonomy kind of a response that is not the evidence. *)
Lemma failure_kind resp :
  (exists e, resp = unexpected_failure e) \/ resp = address_not_found \/
  resp = registry_unavailable \/ resp = parcel_not_found ->
  status resp <> 200%Z /\ match_field resp = false /\
  (exists err, body resp = Failure false err) /\
  (exists kind, Spec.kind_of resp = Some kind).
Proof.
  intros [(e & ->) | [ -> | [ -> | -> ] ] ]; simpl;
    (split; [discriminate|split; [reflexivity|split; eexists; reflexivity]]).
Qed.

(** C5. Every failure of a stage is answered at once, with one kind of the
    taxonomy and a false verdict: no address gives AddressNotFound and the
    registry is not called; a registry status other than 200 gives
    RegistryUnavailable; a 200 answer with no feature gives ParcelNotFound;
    an exception raised anywhere in the [try] block gives UnexpectedFailure;
    and a response that is not the 200 evidence always has ["match"] false. *)
Theorem error_taxonomy :
  forall deed id w,
    (* a response always comes back, and a failure has a false verdict *)
    (exists resp st,
       respond deed id w = (Return resp, st) /\
       (status resp <> 200%Z ->
        match_field resp = false /\
        (exists err, body resp = Failure false err) /\
        (exists kind, Spec.kind_of resp = Some kind)) /\
       (status resp = 200%Z ->
        (exists ev, body resp = Evidence ev) /\ Spec.kind_of resp = None))
    (* the four kinds *)
    /\ (Spec.kind_of address_not_found = Some Spec.AddressNotFound /\
        Spec.kind_of registry_unavailable = Some Spec.RegistryUnavailable /\
        Spec.kind_of parcel_not_found = Some Spec.ParcelNotFound /\
        forall e, Spec.kind_of (unexpected_failure e) = Some Spec.UnexpectedFailure)
    (* AddressNotFound, with no registry call *)
    /\ (forall deed_text id_text deed_names id_names w4,
          extracted deed id w deed_text id_text deed_names id_names w4 ->
          locate deed_text = None ->
          respond deed id w =
            (Return address_not_found,
             {| world := w4; calls := reading_calls deed id deed_text id_text |})
          /\ existsb is_get (reading_calls deed id deed_text id_text) = false)
    (* RegistryUnavailable, ParcelNotFound, UnexpectedFailure after the call *)
    /\ (forall deed_text id_text deed_names id_names w4 m response w5,
          extracted deed id w deed_text id_text deed_names id_names w4 ->
          locate deed_text = Some m ->
          requests_get url (headers API_KEY) (params (group0 m)) w4
            = (Return response, w5) ->
          (status_code response <> 200%Z ->
           fst (respond deed id w) = Return registry_unavailable)
          /\ (forall data,
                status_code response = 200%Z ->
                json response = Return data ->
                features_of data = Return (JList []) ->
                fst (respond deed id w) = Return parcel_not_found)
          /\ (forall e,
                status_code response = 200%Z ->
                judge deed_text deed_names id_names response = Raise e ->
                fst (respond deed id w) = Return (unexpected_failure e)))
    (* UnexpectedFailure, wherever the exception comes from *)
    /\ (forall e st st',
          verify_try World image_to_string nlp requests_get partial_ratio API_KEY
            format_value deed id st = (Raise e, st') ->
          verify World image_to_string nlp requests_get partial_ratio API_KEY
            format_value deed id st = (Return (unexpected_failure e), st')).
Proof.
  intros deed id w. split; [|split; [|split; [|split]]].
  2: { repeat split. }
  - destruct (respond_cases deed id w) as (resp & st & Hrun & Hcases).
    exists resp, st. split; [exact Hrun|].
    assert (Hshape : ((exists e, resp = unexpected_failure e) \/ resp = address_not_found \/
                      resp = registry_unavailable \/ resp = parcel_not_found)
                     \/ (status resp = 200%Z /\ exists ev, body resp = Evidence ev)).
    { destruct Hcases as [He|(dt & it & dn & idn & w4 & _ & [(_ & -> & _)|Hreg])];
        [left; left; exact He | left; right; left; reflexivity |].
      destruct Hreg as (m & response & w5 & _ & _ & _ & [(_ & ->)|(_ & Hj)]);
        [left; right; right; left; reflexivity|].
      apply judge_cases in Hj.
      destruct Hj as (data & features & _ & _ & [(_ & ->)|(_ & Hev)]);
        [left; right; right; right; reflexivity|].
      destruct Hev as (f0 & props & fields & enh & toks & ev & Hev).
      decompose [and] Hev. subst resp. right. simpl. eauto. }
    destruct Hshape as [Hfail|(H200 & ev & Hev)].
    + apply failure_kind in Hfail. destruct Hfail as (Hs & Hm & Hb & Hk).
      split; [intros _; repeat split; assumption|intros H; contradiction].
    + split; [intros H; contradiction|intros _].
      split; [exists ev; exact Hev|]. unfold Spec.kind_of. rewrite Hev. reflexivity.
  - intros dt it dn idn w4 Hex Hm. split; [|reflexivity].
    eapply respond_no_address; eassumption.
  - intros dt it dn idn w4 m response w5 Hex Hm Hget.
    pose proof (respond_with_registry deed id w dt it dn idn w4 m response w5 Hex Hm Hget)
      as Hrun.
    split; [|split].
    + intros Hs. rewrite Hrun. simpl. apply Z.eqb_neq in Hs. rewrite Hs. reflexivity.
    + intros data Hs Hjson Hfeat. rewrite Hrun. simpl.
      apply Z.eqb_eq in Hs. rewrite Hs. simpl.
      unfold Pipeline.judge. rewrite Hjson. simpl. rewrite Hfeat. reflexivity.
    + intros e Hs Hj. rewrite Hrun. simpl.
      apply Z.eqb_eq in Hs. rewrite Hs. simpl. rewrite Hj. reflexivity.
  - intros e st st' Hraise. unfold verify, try_except. rewrite Hraise. reflexivity.
Qed.

(** ** Determinism *)

Lemma blind_ret {A} (a : A) : world_blind World (ret World a).
Proof. intros st st' H. split; [reflexivity|exact H]. Qed.

Lemma blind_lift {A} (c : result A) : world_blind World (lift World c).
Proof. intros st st' H. split; [reflexivity|exact H]. Qed.

Lemma blind_bind {A B} (c : M World A) (f : A -> M World B) :
  world_blind World c -> (forall a, world_blind World (f a)) ->
  world_blind World (bind World c f).
Proof.
  intros Hc Hf st st' H. unfold bind.
  destruct (Hc st st' H) as (Hr & Hs).
  destruct (c st) as [r s1], (c st') as [r' s1']; simpl in *. subst r'.
  destruct r as [a|e]; [apply Hf; exact Hs|].
  split; [reflexivity|exact Hs].
Qed.

Lemma blind_try {A} (c : M World A) (h : exn -> M World A) :
  world_blind World c -> (forall e, world_blind World (h e)) ->
  world_blind World (try_except World c h).
Proof.
  intros Hc Hh st st' H. unfold try_except.
  destruct (Hc st st' H) as (Hr & Hs).
  destruct (c st) as [r s1], (c st') as [r' s1']; simpl in *. subst r'.
  destruct r as [a|e]; [split; [reflexivity|exact Hs]|].
  apply Hh; exact Hs.
Qed.

Lemma blind_perform {A} (c : call) (f : World -> result A * World) :
  fixed World f -> world_blind World (perform World c f).
Proof.
  intros Hf st st' H. unfold perform.
  pose proof (Hf (world World st) (world World st')) as Hr.
  destruct (f (world World st)) as [r w1], (f (world World st')) as [r' w1'].
  simpl in *. split; [exact Hr|]. rewrite H. reflexivity.
Qed.

Lemma blind_verify deed id :
  fixed_collaborators World image_to_string nlp requests_get ->
  world_blind World
    (verify World image_to_string nlp requests_get partial_ratio API_KEY
       format_value deed id).
Proof.
  intros (Hocr & Hnlp & Hget).
  unfold verify. apply blind_try; [|intros e; apply blind_ret].
  unfold verify_try, extract_text_from_image, extract_owners_with_spacy.
  apply blind_bind; [apply blind_perform, Hocr|intros deed_text].
  apply blind_bind; [apply blind_perform, Hocr|intros id_text].
  apply blind_bind;
    [apply blind_bind; [apply blind_perform, Hnlp|intros; apply blind_ret]|intros dn].
  apply blind_bind;
    [apply blind_bind; [apply blind_perform, Hnlp|intros; apply blind_ret]|intros idn].
  destruct (locate deed_text) as [m|]; [|apply blind_ret].
  apply blind_bind; [apply blind_perform, Hget|intros response].
  destruct (negb _); [apply blind_ret|apply blind_lift].
Qed.

(** C9. [verify] is deterministic: when the text extractor, the entity
    extractor and the registry client give fixed answers, two runs on the
    same deed and ID bytes give the same response, verdict and evidence
    included, and make the same calls, whatever the world each run starts
    in; in particular a second run, started where the first one ended. *)
Theorem verify_deterministic :
  fixed_collaborators World image_to_string nlp requests_get ->
  forall deed id w w',
    fst (respond deed id w) = fst (respond deed id w')
    /\ calls World (snd (respond deed id w)) = calls World (snd (respond deed id w'))
    /\ fst (respond deed id (world World (snd (respond deed id w))))
       = fst (respond deed id w).
Proof.
  intros Hfixed deed id w w'.
  assert (Hblind : forall w1 w2,
             fst (respond deed id w1) = fst (respond deed id w2) /\
             calls World (snd (respond deed id w1))
             = calls World (snd (respond deed id w2))).
  { intros w1 w2. apply (blind_verify deed id Hfixed). reflexivity. }
  split; [apply Hblind|split; apply Hblind].
Qed.

(** ** Candidate selection *)

(** C6. Selection is first-match: on a registry owner that is a string or
    absent, the selected name is the first entry of the list, in list order,
    that the name matcher accepts, and [None] when it accepts none.  On an
    empty list nothing is selected, whatever the owner, nothing is raised,
    and the name-match flag of the response is false. *)
Theorem first_matching_is_first :
  forall names (owner : option string),
    let accepts := fun name => Spec.matches partial_ratio (Some name) owner 70 in
    first_matching names (of_option owner) = Return (find accepts names)
    /\ (forall name,
          first_matching names (of_option owner) = Return (Some name) <->
          exists before after,
            names = before ++ name :: after /\ accepts name = true /\
            forall other, In other before -> accepts other = false)
    /\ (first_matching names (of_option owner) = Return None <->
        forall name, In name names -> accepts name = false)
    /\ (forall owner_value : value, first_matching [] owner_value = Return None)
    /\ (forall deed_text deed_names response resp ev,
          judge deed_text deed_names [] response = Return resp ->
          body resp = Evidence ev ->
          matched_name_from_id ev = None /\ owner_name_match_from_id ev = false)
    /\ (forall deed_text id_names response resp ev,
          judge deed_text [] id_names response = Return resp ->
          body resp = Evidence ev ->
          matched_name_from_deed ev = None /\ owner_name_match_from_deed ev = false).
Proof.
  intros names owner accepts.
  assert (Hfind : first_matching names (of_option owner) = Return (find accepts names)).
  { unfold Pipeline.first_matching. apply next_where_find. intros name _.
    destruct owner as [o|]; [apply is_name_match_on_strings|].
    unfold is_name_match; simpl. rewrite orb_true_r. reflexivity. }
  split; [exact Hfind|]. rewrite Hfind.
  split; [|split; [|split; [|split]]].
  - intros name. rewrite <- find_first. split; congruence.
  - rewrite <- find_none_iff. split; congruence.
  - reflexivity.
  - intros dt dn response resp ev Hj Hb. apply judge_cases in Hj.
    destruct Hj as (data & features & _ & _ & [(_ & ->)|(_ & Hev)]); [discriminate|].
    destruct Hev as (f0 & props & fields & enh & toks & ev' & Hev).
    decompose [and] Hev. subst resp. simpl in Hb. injection Hb as <-.
    assert (Hnone : matched_name_from_id ev' = None)
      by (unfold Pipeline.first_matching in *; simpl in *; congruence).
    split; [exact Hnone|]. rewrite Hnone in *. assumption.
  - intros dt idn response resp ev Hj Hb. apply judge_cases in Hj.
    destruct Hj as (data & features & _ & _ & [(_ & ->)|(_ & Hev)]); [discriminate|].
    destruct Hev as (f0 & props & fields & enh & toks & ev' & Hev).
    decompose [and] Hev. subst resp. simpl in Hb. injection Hb as <-.
    assert (Hnone : matched_name_from_deed ev' = None)
      by (unfold Pipeline.first_matching in *; simpl in *; congruence).
    split; [exact Hnone|]. rewrite Hnone in *. assumption.
Qed.

(** ** The registry record *)

(** C8. The owner every name is matched against comes from the first
    feature of the registry's answer alone: the features after it do not
    change the response.  It is the [eo_owner] of the first
    enhanced-ownership entry when that entry has the key, and the [owner]
    field (default [""]) otherwise, also when there is no such entry.  The
    three valuation fields are [parval], [landval] and [improvval], each 0
    when absent. *)
Theorem owner_from_first_feature :
  (forall deed_text deed_names id_names r1 r2 data1 data2 f0 rest1 rest2,
      json r1 = Return data1 -> json r2 = Return data2 ->
      features_of data1 = Return (JList (f0 :: rest1)) ->
      features_of data2 = Return (JList (f0 :: rest2)) ->
      judge deed_text deed_names id_names r1 = judge deed_text deed_names id_names r2)
  /\ (forall entry others fields,
        owner_of (JList (JDict entry :: others)) fields =
        match dict_lookup "eo_owner" entry with
        | Some override => Return override
        | None => get fields "owner" (JStr "")
        end)
  /\ (forall fields, owner_of (JList []) fields = get fields "owner" (JStr ""))
  /\ (forall d, get (JDict d) "owner" (JStr "") = Return (lookup_or d "owner" (JStr "")))
  /\ (forall deed_text deed_names id_names response resp ev,
        judge deed_text deed_names id_names response = Return resp ->
        body resp = Evidence ev ->
        exists data features f0 props fields enhanced,
          json response = Return data /\ features_of data = Return features /\
          item0 features = Return f0 /\
          get f0 "properties" (JDict []) = Return props /\
          get props "fields" (JDict []) = Return fields /\
          get props "enhanced_ownership" (JList []) = Return enhanced /\
          owner_of enhanced fields = Return (regrid_owner ev) /\
          first_matching deed_names (regrid_owner ev)
            = Return (matched_name_from_deed ev) /\
          first_matching id_names (regrid_owner ev)
            = Return (matched_name_from_id ev) /\
          valuation_from fields = Return (valuation_of ev))
  /\ (forall d,
        valuation_from (JDict d) =
        Return {| total_value := lookup_or d "parval" (JNum 0);
                  land_value := lookup_or d "landval" (JNum 0);
                  improvement_value := lookup_or d "improvval" (JNum 0) |})
  /\ (forall d key, dict_lookup key d = None -> lookup_or d key (JNum 0) = JNum 0).
Proof.
  repeat match goal with |- _ /\ _ => split end.
  - intros dt dn idn r1 r2 data1 data2 f0 rest1 rest2 H1 H2 Hf1 Hf2.
    unfold Pipeline.judge. rewrite H1, H2. simpl. rewrite Hf1, Hf2. reflexivity.
  - intros entry others fields. unfold owner_of. simpl. unfold lookup_or.
    destruct (dict_lookup "eo_owner" entry); reflexivity.
  - reflexivity.
  - reflexivity.
  - intros dt dn idn response resp ev Hj Hb. apply judge_cases in Hj.
    destruct Hj as (data & features & Hd & Hf & [(_ & ->)|(_ & Hev)]); [discriminate|].
    destruct Hev as (f0 & props & fields & enh & toks & ev' & Hev).
    decompose [and] Hev. subst resp. simpl in Hb. injection Hb as <-.
    exists data, features, f0, props, fields, enh. repeat split; assumption.
  - reflexivity.
  - intros d key H. unfold lookup_or. rewrite H. reflexivity.
Qed.

(** ** The address reconciler *)

(** C2. The reconciler reads the five registry tokens (house number, street
    name, street type, city, 5-digit zip, each [""] when absent); a token is
    present when it is not empty and its upper-cased form is a substring of
    the upper-cased deed text; the address matches exactly when at least 3
    tokens are present.  For the tokens 123, MAIN, ST, DALLAS, 75201 a deed
    text with 123, MAIN and ST matches and one with 123 and MAIN only does
    not. *)
Theorem reconcile_three_of_five :
  forall deed_text tokens n,
    Spec.count_present deed_text tokens n ->
    reconcile (map JStr tokens) deed_text = Return (Nat.leb 3 n)
    /\ (forall d,
          address_tokens (JDict d) =
          Return [lookup_or d "saddno" (JStr ""); lookup_or d "saddstr" (JStr "");
                  lookup_or d "saddsttyp" (JStr ""); lookup_or d "scity" (JStr "");
                  lookup_or d "szip5" (JStr "")])
    /\ (forall token,
          token_present (upper deed_text) (JStr token) = Return true <->
          Spec.present deed_text token)
    /\ token_present (upper deed_text) (JStr "") = Return false
    /\ token_present (upper deed_text) JNull = Return false
    /\ (forall deed_names id_names response resp ev,
          judge deed_text deed_names id_names response = Return resp ->
          body resp = Evidence ev ->
          exists fields registry_tokens,
            address_tokens fields = Return registry_tokens /\
            reconcile registry_tokens deed_text = Return (deed_address_match ev))
    /\ reconcile (map JStr ["123"; "MAIN"; "ST"; "DALLAS"; "75201"])
         "Lot at 123 Main St" = Return true
    /\ reconcile (map JStr ["123"; "MAIN"; "ST"; "DALLAS"; "75201"])
         "Lot at 123 Main" = Return false.
Proof.
  intros deed_text tokens n Hcount.
  repeat match goal with |- _ /\ _ => split end.
  - unfold reconcile. rewrite matched_string_tokens. simpl.
    rewrite length_map. rewrite (count_present_unique _ _ _ Hcount). reflexivity.
  - reflexivity.
  - intros token. rewrite token_present_string, <- string_present_iff.
    split; congruence.
  - reflexivity.
  - reflexivity.
  - intros dn idn response resp ev Hj Hb. apply judge_cases in Hj.
    destruct Hj as (data & features & _ & _ & [(_ & ->)|(_ & Hev)]); [discriminate|].
    destruct Hev as (f0 & props & fields & enh & toks & ev' & Hev).
    decompose [and] Hev. subst resp. simpl in Hb. injection Hb as <-.
    exists fields, toks. split; assumption.
  - reflexivity.
  - reflexivity.
Qed.

End WithCollaborators.

End PipelineFacts.

(* ===================================================================== *)
(** * The backtracking matcher against the language of a pattern *)
(* ===================================================================== *)

Module ReFacts.
Import PyStr Re StrFacts.

Lemma drop_prefix_app p rest : drop_prefix p (p ++ rest) = Some rest.
Proof.
  induction p as [|a p IH]; simpl; [reflexivity|].
  rewrite Ascii.eqb_refl. exact IH.
Qed.

Lemma drop_prefix_some p s rest : drop_prefix p s = Some rest -> s = (p ++ rest)%string.
Proof.
  revert s; induction p as [|a p IH]; intros s H; simpl in *.
  - congruence.
  - destruct s as [|b s]; [discriminate|].
    destruct (Ascii.eqb a b) eqn:Hab; [|discriminate].
    apply Ascii.eqb_eq in Hab. subst b. f_equal. apply IH. exact H.
Qed.

Lemma below_zero hi : below 0 hi.
Proof. destruct hi; simpl; [lia|exact I]. Qed.

(** Stopping a repetition: nothing more is taken, the lower bound is met. *)
Lemma rep_stop_sound {A} cls lo hi s (k : string -> option A) x :
  (if Nat.eqb lo 0 then k s else None) = Some x ->
  exists m rest,
    s = (m ++ rest)%string /\ all_in cls m = true /\
    lo <= String.length m /\ below (String.length m) hi /\ k rest = Some x.
Proof.
  destruct (Nat.eqb lo 0) eqn:Hlo; [|discriminate].
  apply Nat.eqb_eq in Hlo. subst lo. intros Hk.
  exists EmptyString, s. simpl. repeat split; auto using below_zero.
Qed.

(** A repetition only succeeds through a run of the class within the
    bounds. *)
Lemma rep_bt_sound {A} cls s (k : string -> option A) x :
  forall lo hi,
    rep_bt cls lo hi s k = Some x ->
    exists m rest,
      s = (m ++ rest)%string /\ all_in cls m = true /\
      lo <= String.length m /\ below (String.length m) hi /\ k rest = Some x.
Proof.
  induction s as [|c s IH]; intros lo hi H; simpl in H.
  - apply rep_stop_sound; exact H.
  - destruct (cls c && may_take hi) eqn:Htake; [|apply rep_stop_sound; exact H].
    destruct (rep_bt cls (Nat.pred lo) (option_map Nat.pred hi) s k) as [y|] eqn:Hrec;
      [|apply rep_stop_sound; exact H].
    injection H as ->. apply andb_true_iff in Htake. destruct Htake as [Hc Hhi].
    apply IH in Hrec. destruct Hrec as (m & rest & -> & Hall & Hlo & Hbelow & Hk).
    exists (String c m), rest. simpl. rewrite Hc, Hall.
    repeat split; auto; [lia|].
    destruct hi as [[|h]|]; simpl in *; [discriminate|lia|exact I].
Qed.

Lemma rep_bt_stop {A} cls hi s (k : string -> option A) :
  (exists x, k s = Some x) -> exists y, rep_bt cls 0 hi s k = Some y.
Proof.
  intros (x & Hk). destruct s as [|c s]; simpl; [eauto|].
  destruct (cls c && may_take hi); [|eauto].
  destruct (rep_bt cls 0 (option_map Nat.pred hi) s k); eauto.
Qed.

(** A run of the class within the bounds, with a continuation that accepts
    what follows, makes the repetition succeed. *)
Lemma rep_bt_complete {A} cls m :
  forall lo hi rest (k : string -> option A),
    all_in cls m = true -> lo <= String.length m -> below (String.length m) hi ->
    (exists x, k rest = Some x) ->
    exists y, rep_bt cls lo hi (m ++ rest) k = Some y.
Proof.
  induction m as [|c m IH]; intros lo hi rest k Hall Hlo Hhi Hk; simpl in *.
  - assert (lo = 0) by lia. subst lo. apply rep_bt_stop; exact Hk.
  - apply andb_true_iff in Hall. destruct Hall as [Hc Hall]. rewrite Hc.
    assert (Htake : may_take hi = true).
    { destruct hi as [[|h]|]; simpl in *; [lia|reflexivity|reflexivity]. }
    rewrite Htake. simpl.
    destruct (IH (Nat.pred lo) (option_map Nat.pred hi) rest k) as (y & Hy);
      [exact Hall|lia| |exact Hk|].
    + destruct hi as [h|]; simpl in *; [lia|exact I].
    + rewrite Hy. eauto.
Qed.

(** Whatever the matcher accepts at the front of [s] is in the language. *)
Lemma bt_sound {A} r :
  forall s (k : string -> option A) x,
    bt r s k = Some x ->
    exists m rest, s = (m ++ rest)%string /\ lang r m /\ k rest = Some x.
Proof.
  induction r as [p|cls lo hi|r1 IH1 r2 IH2|r1 IH1 r2 IH2]; intros s k x H; simpl in H.
  - destruct (drop_prefix p s) as [rest|] eqn:Hp; [|discriminate].
    apply drop_prefix_some in Hp. exists p, rest. repeat split; auto. constructor.
  - apply rep_bt_sound in H. destruct H as (m & rest & -> & Hall & Hlo & Hhi & Hk).
    exists m, rest. repeat split; auto. constructor; assumption.
  - apply IH1 in H. destruct H as (m1 & rest1 & -> & Hl1 & H).
    apply IH2 in H. destruct H as (m2 & rest & -> & Hl2 & Hk).
    exists (m1 ++ m2)%string, rest. rewrite append_assoc.
    repeat split; auto. constructor; assumption.
  - destruct (bt r1 s k) as [y|] eqn:H1.
    + injection H as ->. apply IH1 in H1. destruct H1 as (m & rest & -> & Hl & Hk).
      exists m, rest. repeat split; auto. apply lang_alt_l; exact Hl.
    + apply IH2 in H. destruct H as (m & rest & -> & Hl & Hk).
      exists m, rest. repeat split; auto. apply lang_alt_r; exact Hl.
Qed.

(** The matcher finds a match whenever the front of [s] has one. *)
Lemma bt_complete r m :
  lang r m ->
  forall A rest (k : string -> option A),
    (exists x, k rest = Some x) -> exists y, bt r (m ++ rest) k = Some y.
Proof.
  induction 1 as [p|cls lo hi s Hall Hlo Hhi|r1 r2 s1 s2 _ IH1 _ IH2
                 |r1 r2 s _ IH|r1 r2 s _ IH]; intros A rest k Hk; simpl.
  - rewrite drop_prefix_app. exact Hk.
  - apply rep_bt_complete; assumption.
  - rewrite append_assoc. apply IH1. apply IH2. exact Hk.
  - destruct (IH A rest k Hk) as (y & ->). eauto.
  - destruct (bt r1 (s ++ rest) k); [eauto|]. apply IH; exact Hk.
Qed.

Lemma take_app m rest :
  take (String.length (m ++ rest) - String.length rest) (m ++ rest) = m.
Proof.
  rewrite length_append. replace (_ + _ - _) with (String.length m) by lia.
  induction m as [|c m IH]; simpl.
  - destruct rest; reflexivity.
  - f_equal. exact IH.
Qed.

Lemma match_front_some r s m :
  match_front r s = Some m -> exists rest, s = (m ++ rest)%string /\ lang r m.
Proof.
  unfold match_front. destruct (bt r s (fun rest => Some rest)) as [rest|] eqn:H;
    [|discriminate].
  intros [= <-]. apply bt_sound in H. destruct H as (m & rest' & -> & Hl & [= ->]).
  exists rest. rewrite take_app. split; [reflexivity|exact Hl].
Qed.

Lemma match_front_none r s :
  match_front r s = None -> forall m rest, s = (m ++ rest)%string -> ~ lang r m.
Proof.
  unfold match_front. intros H m rest -> Hl.
  destruct (bt_complete r m Hl string rest (fun rest => Some rest)) as (y & Hy); [eauto|].
  rewrite Hy in H. discriminate.
Qed.

(** [search] returns a match of the language at the first position where
    one starts. *)
Lemma search_from_some r s :
  forall pos mo,
    search_from pos r s = Some mo ->
    exists before after,
      s = (before ++ group0 mo ++ after)%string /\
      m_start mo = pos + String.length before /\
      lang r (group0 mo) /\
      forall before' m' after',
        s = (before' ++ m' ++ after')%string -> lang r m' ->
        String.length before <= String.length before'.
Proof.
  induction s as [|c s IH]; intros pos mo H; simpl in H.
  - destruct (match_front r EmptyString) as [m|] eqn:Hm; [|discriminate].
    injection H as <-. apply match_front_some in Hm. destruct Hm as (rest & Hs & Hl).
    exists EmptyString, rest. simpl. repeat split; auto; lia.
  - destruct (match_front r (String c s)) as [m|] eqn:Hm.
    + injection H as <-. apply match_front_some in Hm. destruct Hm as (rest & Hs & Hl).
      exists EmptyString, rest. simpl. repeat split; auto; lia.
    + apply IH in H. destruct H as (before & after & -> & Hstart & Hl & Hleft).
      exists (String c before), after. simpl. repeat split; auto; [lia|].
      intros before' m' after' Hs Hl'. destruct before' as [|b before']; simpl in Hs.
      * exfalso. eapply match_front_none; eauto.
      * injection Hs as -> Hs. simpl. apply le_n_S. eapply Hleft; eauto.
Qed.

Lemma search_from_none r s :
  forall pos,
    search_from pos r s = None ->
    forall before m after, s = (before ++ m ++ after)%string -> ~ lang r m.
Proof.
  induction s as [|c s IH]; intros pos H before m after Hs; simpl in H.
  - destruct (match_front r EmptyString) eqn:Hm; [discriminate|].
    destruct before; [|discriminate]. eapply match_front_none; eauto.
  - destruct (match_front r (String c s)) eqn:Hm; [discriminate|].
    destruct before as [|b before]; simpl in Hs.
    + eapply match_front_none; eauto.
    + injection Hs as -> Hs. eapply IH; eauto.
Qed.

Lemma lang_alternation first others t :
  lang (alternation first others) t <-> In t (first :: others).
Proof.
  revert first; induction others as [|o others IH]; intros first; simpl.
  - split.
    + intros H. inversion H; subst. left; reflexivity.
    + intros [<-|[]]. constructor.
  - split.
    + intros H. inversion H; subst.
      * match goal with Hl : lang (Lit _) _ |- _ => inversion Hl; subst end.
        left; reflexivity.
      * right. apply IH. assumption.
    + intros [<-|Hin].
      * apply lang_alt_l. constructor.
      * apply lang_alt_r. apply IH. exact Hin.
Qed.

End ReFacts.

(* ===================================================================== *)
(** * The address locator *)
(* ===================================================================== *)

Module AddressFacts.
Import PyStr Py Re AddressLocator Pipeline StrFacts ReFacts.

Lemma lang_cat_inv r1 r2 s :
  lang (Cat r1 r2) s ->
  exists s1 s2, s = (s1 ++ s2)%string /\ lang r1 s1 /\ lang r2 s2.
Proof. intros H. inversion H; subst. eauto. Qed.

Lemma lang_rep_inv cls lo hi s :
  lang (Rep cls lo hi) s ->
  all_in cls s = true /\ lo <= String.length s /\ below (String.length s) hi.
Proof. intros H. inversion H; subst. auto. Qed.

(** The language of the address pattern, spelled out. *)
Lemma address_language m : lang address_regex m <-> Spec.is_address m.
Proof.
  unfold address_regex, Spec.is_address. split.
  - intros H.
    apply lang_cat_inv in H. destruct H as (number & m1 & -> & Hn & H).
    apply lang_cat_inv in H. destruct H as (gap & m2 & -> & Hg & H).
    apply lang_cat_inv in H. destruct H as (run & ty & -> & Hr & Ht).
    apply lang_rep_inv in Hn. destruct Hn as (Hn1 & Hn2 & Hn3).
    apply lang_rep_inv in Hg. destruct Hg as (Hg1 & Hg2 & _).
    apply lang_rep_inv in Hr. destruct Hr as (Hr1 & Hr2 & _).
    apply lang_alternation in Ht. simpl in Hn3.
    exists number, gap, run, ty. repeat split; assumption.
  - intros (number & gap & run & ty & -> & Hn & (Hlo & Hhi) & Hg & Hgl & Hr & Hrl & Ht).
    repeat apply lang_cat.
    + apply lang_rep; simpl; assumption.
    + apply lang_rep; simpl; auto.
    + apply lang_rep; simpl; auto.
    + apply lang_alternation. exact Ht.
Qed.

(** The substrings [tokenized_search_from] goes through are all of them. *)
Lemma prefixes_all m rest : In m (Spec.prefixes (m ++ rest)).
Proof.
  induction m as [|c m IH]; simpl.
  - destruct rest; left; reflexivity.
  - right. apply in_map. exact IH.
Qed.

Lemma tokenized_search_none s :
  forall pos,
    Spec.tokenized_search_from pos s = None ->
    forall before m after,
      s = (before ++ m ++ after)%string -> Spec.tokenized_address m = false.
Proof.
  induction s as [|c s IH]; intros pos H before m after Hs; simpl in H.
  - destruct (Spec.tokenized_address EmptyString) eqn:He; [discriminate|].
    destruct before; [|discriminate]. destruct m; [exact He|discriminate].
  - destruct (find Spec.tokenized_address (Spec.prefixes (String c s))) eqn:Hf.
    + simpl in Hf. rewrite Hf in H. discriminate.
    + assert (Hnone : Spec.tokenized_search_from (S pos) s = None).
      { simpl in Hf. rewrite Hf in H. exact H. }
      destruct before as [|b before]; simpl in Hs.
      * eapply find_none in Hf; [exact Hf|]. rewrite Hs. apply prefixes_all.
      * injection Hs as -> Hs. eapply IH; eauto.
Qed.

(** C4, as the code has it.  The locator returns a match of the pattern in
    the upper-cased deed text: 2 to 6 digits, white space, a run of one or
    more characters that are uppercase letters, digits, white space or
    hyphens, and, right at the end of the run, one of the street types of the
    vocabulary, which need not be a word of its own.  The match starts at
    the leftmost position where such a substring starts.  When there is
    none, the pipeline answers AddressNotFound and makes no registry call. *)
Theorem locate_leftmost :
  forall deed_text,
    match locate deed_text with
    | Some mo =>
        exists before after,
          upper deed_text = (before ++ group0 mo ++ after)%string /\
          m_start mo = String.length before /\
          Spec.is_address (group0 mo) /\
          forall before' m' after',
            upper deed_text = (before' ++ m' ++ after')%string ->
            Spec.is_address m' ->
            String.length before <= String.length before'
    | None =>
        (forall before m after,
           upper deed_text = (before ++ m ++ after)%string -> ~ Spec.is_address m)
        /\ forall World image_to_string nlp requests_get partial_ratio API_KEY
             format_value deed id w id_text deed_names id_names w4,
             extracted World image_to_string nlp deed id w deed_text id_text
               deed_names id_names w4 ->
             respond World image_to_string nlp requests_get partial_ratio API_KEY
               format_value deed id w
             = (Return address_not_found,
                {| world := w4; calls := reading_calls deed id deed_text id_text |})
             /\ existsb is_get (reading_calls deed id deed_text id_text) = false
    end.
Proof.
  intros deed_text. destruct (locate deed_text) as [mo|] eqn:Hloc.
  - unfold locate, search in Hloc. apply search_from_some in Hloc.
    destruct Hloc as (before & after & Hs & Hstart & Hl & Hleft).
    exists before, after. repeat split; auto.
    + apply address_language. exact Hl.
    + intros before' m' after' Hs' Ha. eapply Hleft; [exact Hs'|].
      apply address_language. exact Ha.
  - split.
    + intros before m after Hs Ha. unfold locate, search in Hloc.
      eapply search_from_none in Hloc; [|exact Hs].
      apply Hloc. apply address_language. exact Ha.
    + intros World ocr nlp get score key fmt deed id w id_text dn idn w4 Hex.
      split; [|reflexivity].
      eapply PipelineFacts.respond_no_address; eassumption.
Qed.

End AddressFacts.

(* ===================================================================== *)
(** * The specification's vectors and concrete runs *)
(* ===================================================================== *)

Module Scenarios.
Import PyStr Py Re AddressLocator NameMatcher Pipeline Doubles.

(** C7. The vectors of the specification, with the scorer of the model:
    "JOHN A SMITH" against "SMITH JOHN A" scores 67, below 70, and the
    initials JAS and SJA differ, so the matcher returns false;
    "ROBERT JONES" against itself scores 100 and the matcher returns true in
    the fuzzy tier.  With any scorer that stays below 70 on the first pair
    the answer is false, and with any scorer at 70 or more on the second it
    is true. *)
Theorem spec_vectors :
  is_name_match Fuzz.partial_ratio (JStr "JOHN A SMITH") (JStr "SMITH JOHN A")
    default_threshold = Return false
  /\ Fuzz.partial_ratio "JOHN A SMITH" "SMITH JOHN A" = 67%Z
  /\ initials "JOHN A SMITH" = Return "JAS"
  /\ initials "SMITH JOHN A" = Return "SJA"
  /\ is_name_match Fuzz.partial_ratio (JStr "ROBERT JONES") (JStr "ROBERT JONES")
       default_threshold = Return true
  /\ Fuzz.partial_ratio "ROBERT JONES" "ROBERT JONES" = 100%Z
  /\ (forall score,
        (score "JOHN A SMITH" "SMITH JOHN A" < 70)%Z ->
        is_name_match score (JStr "JOHN A SMITH") (JStr "SMITH JOHN A")
          default_threshold = Return false)
  /\ (forall score,
        (70 <= score "ROBERT JONES" "ROBERT JONES")%Z ->
        is_name_match score (JStr "ROBERT JONES") (JStr "ROBERT JONES")
          default_threshold = Return true).
Proof.
  repeat match goal with |- _ /\ _ => split end; try (vm_compute; reflexivity).
  - intros score Hlow. rewrite NameMatcherFacts.is_name_match_on_strings.
    unfold Spec.matches, default_threshold.
    change (upper (strip "JOHN A SMITH")) with "JOHN A SMITH".
    change (upper (strip "SMITH JOHN A")) with "SMITH JOHN A".
    apply Z.leb_gt in Hlow. rewrite Hlow. reflexivity.
  - intros score Hhigh. rewrite NameMatcherFacts.is_name_match_on_strings.
    unfold Spec.matches, default_threshold.
    change (upper (strip "ROBERT JONES")) with "ROBERT JONES".
    apply Z.leb_le in Hhigh. rewrite Hhigh. reflexivity.
Qed.

(** The deed and the ID of John Smith against a parcel he owns. *)
Lemma verdict_is_fusion_witness :
  exists resp st ev,
    run (answer (parcels [feature "JOHN SMITH"])) deed_image id_image = (Return resp, st)
    /\ body resp = Evidence ev
    /\ is_match ev =
       deed_address_match ev
       && (owner_name_match_from_deed ev || owner_name_match_from_id ev)
    /\ is_match ev = true.
Proof.
  eexists _, _, _.
  split; [vm_compute; reflexivity|].
  split; [reflexivity|].
  split; [|reflexivity].
  refine (proj1 (PipelineFacts.verdict_is_fusion World image_to_string (nlp entities)
                   (requests_get (answer (parcels [feature "JOHN SMITH"])))
                   Fuzz.partial_ratio (Some "key") format_value deed_image id_image 0
                   _ _ _ _ _)).
  - vm_compute. reflexivity.
  - reflexivity.
Defined.

(** Three of the five tokens in the deed text. *)
Lemma reconcile_three_of_five_witness :
  Spec.count_present "Lot at 123 Main St" ["123"; "MAIN"; "ST"; "DALLAS"; "75201"] 3
  /\ reconcile (map JStr ["123"; "MAIN"; "ST"; "DALLAS"; "75201"]) "Lot at 123 Main St"
     = Return (Nat.leb 3 3).
Proof.
  assert (H : Spec.count_present "Lot at 123 Main St"
                ["123"; "MAIN"; "ST"; "DALLAS"; "75201"] 3).
  { exact (ReconcilerFacts.count_present_filter "Lot at 123 Main St"
             ["123"; "MAIN"; "ST"; "DALLAS"; "75201"]). }
  split; [exact H|].
  exact (proj1 (PipelineFacts.reconcile_three_of_five Fuzz.partial_ratio format_value
                  "Lot at 123 Main St" ["123"; "MAIN"; "ST"; "DALLAS"; "75201"] 3 H)).
Defined.

Lemma doubles_fixed response :
  fixed_collaborators World image_to_string (nlp entities) (requests_get response).
Proof. repeat split. Qed.

(** A second run, in the world the first one left, answers the same. *)
Lemma verify_deterministic_witness :
  fixed_collaborators World image_to_string (nlp entities)
    (requests_get (answer (parcels [feature "JOHN SMITH"])))
  /\ fst (run (answer (parcels [feature "JOHN SMITH"])) deed_image id_image)
     = fst (respond World image_to_string (nlp entities)
              (requests_get (answer (parcels [feature "JOHN SMITH"])))
              Fuzz.partial_ratio (Some "key") format_value deed_image id_image 5).
Proof.
  split; [apply doubles_fixed|].
  exact (proj1 (PipelineFacts.verify_deterministic World image_to_string (nlp entities)
                  (requests_get (answer (parcels [feature "JOHN SMITH"])))
                  Fuzz.partial_ratio (Some "key") format_value
                  (doubles_fixed _) deed_image id_image 0 5)).
Defined.

(** On an address written in separate words the word-by-word reading and
    the pattern agree. *)
Example tokenized_locate_agrees :
  Spec.tokenized_locate "Lot at 123 Main St, Dallas"
  = Some {| m_start := 7; group0 := "123 MAIN ST" |}
  /\ locate "Lot at 123 Main St, Dallas"
     = Some {| m_start := 7; group0 := "123 MAIN ST" |}.
Proof. split; vm_compute; reflexivity. Qed.

(** "12 WEST" holds no house number followed by name tokens and a street
    type token, yet the locator finds an address in it, through the ST that
    ends WEST, and the registry is asked about it. *)
Lemma tokenized_address_counterexample :
  (forall before m after,
     "12 WEST" = (before ++ m ++ after)%string -> Spec.tokenized_address m = false)
  /\ Spec.tokenized_locate "12 west" = None
  /\ locate "12 west" = Some {| m_start := 0; group0 := "12 WEST" |}
  /\ exists st,
       run (answer (parcels [])) (list_byte_of_string "12 west") id_image
       = (Return parcel_not_found, st)
       /\ existsb is_get (calls World st) = true.
Proof.
  split; [|split; [|split]].
  - apply (AddressFacts.tokenized_search_none "12 WEST" 0). vm_compute. reflexivity.
  - vm_compute. reflexivity.
  - vm_compute. reflexivity.
  - eexists. split; vm_compute; reflexivity.
Qed.

(** The deed of the specification with no address in it: the answer is
    AddressNotFound after the four reading calls, the registry not among
    them. *)
Lemma error_taxonomy_witness :
  locate "Sale completed." = None
  /\ run (answer (parcels [feature "JOHN SMITH"]))
       (list_byte_of_string "Sale completed.") id_image
     = (Return address_not_found,
        {| world := 4;
           calls := reading_calls (list_byte_of_string "Sale completed.") id_image
                      "Sale completed." "Driver license John A Smith" |}).
Proof.
  split; [reflexivity|].
  refine (proj1 (proj1 (proj2 (proj2
            (PipelineFacts.error_taxonomy World image_to_string (nlp entities)
               (requests_get (answer (parcels [feature "JOHN SMITH"])))
               Fuzz.partial_ratio (Some "key") format_value
               (list_byte_of_string "Sale completed.") id_image 0)))
            "Sale completed." "Driver license John A Smith" _ _ 4 _ _)).
  - exists 1, 2, 3, [], [person "John A Smith"]. repeat split.
  - reflexivity.
Defined.

(** The other failures, one run each: a registry that answers 503, an
    answer without features, an answer that is not JSON, an answer that is
    not an object, and a scan that cannot be read. *)
Example failures :
  fst (run {| status_code := 503; json := Raise (Raised "no body") |}
         deed_image id_image) = Return registry_unavailable
  /\ fst (run (answer (parcels [])) deed_image id_image) = Return parcel_not_found
  /\ fst (run (answer (JDict [])) deed_image id_image) = Return parcel_not_found
  /\ fst (run {| status_code := 200; json := Raise (Raised "Expecting value") |}
            deed_image id_image)
     = Return (unexpected_failure (Raised "Expecting value"))
  /\ fst (run (answer (JList [])) deed_image id_image)
     = Return (unexpected_failure (AttributeError (JList []) "get"))
  /\ fst (respond World image_to_string_failing (nlp entities)
            (requests_get (answer (parcels []))) Fuzz.partial_ratio None
            format_value deed_image id_image 0)
     = Return (unexpected_failure (Raised "cannot identify image file")).
Proof. repeat split; vm_compute; reflexivity. Qed.

(** First match, not best match: JON SMYTH scores 78 against the owner and
    is selected, although JOHN SMITH, further in the list, scores 100. *)
Lemma first_matching_is_first_witness :
  first_matching Fuzz.partial_ratio ["MARY JONES"; "JON SMYTH"; "JOHN SMITH"]
    (JStr "JOHN SMITH") = Return (Some "JON SMYTH")
  /\ Fuzz.partial_ratio "JON SMYTH" "JOHN SMITH" = 78%Z
  /\ Fuzz.partial_ratio "JOHN SMITH" "JOHN SMITH" = 100%Z.
Proof.
  split; [|split; vm_compute; reflexivity].
  apply (proj1 (proj2 (PipelineFacts.first_matching_is_first Fuzz.partial_ratio
                         format_value ["MARY JONES"; "JON SMYTH"; "JOHN SMITH"]
                         (Some "JOHN SMITH")))).
  exists ["MARY JONES"], ["JOHN SMITH"].
  split; [reflexivity|]. split; [vm_compute; reflexivity|].
  intros other [<-|[]]. vm_compute. reflexivity.
Defined.

(** A second feature with another owner changes nothing. *)
Lemma owner_from_first_feature_witness :
  judge Fuzz.partial_ratio format_value "123 Main St, Dallas" ["JOHN SMITH"] []
    (answer (parcels [feature "JOHN SMITH"]))
  = judge Fuzz.partial_ratio format_value "123 Main St, Dallas" ["JOHN SMITH"] []
      (answer (parcels [feature "JOHN SMITH"; feature "MARY JONES"])).
Proof.
  apply (proj1 (PipelineFacts.owner_from_first_feature Fuzz.partial_ratio format_value)
           "123 Main St, Dallas" ["JOHN SMITH"] []
           (answer (parcels [feature "JOHN SMITH"]))
           (answer (parcels [feature "JOHN SMITH"; feature "MARY JONES"]))
           (parcels [feature "JOHN SMITH"])
           (parcels [feature "JOHN SMITH"; feature "MARY JONES"])
           (feature "JOHN SMITH") [] [feature "MARY JONES"]);
    reflexivity.
Defined.

(** The owner comes from the override when there is one, from the [owner]
    field when there is none, and the valuation defaults to 0. *)
Example owners :
  owner_of (JList [JDict [("eo_owner", JStr "JOHN SMITH")]]) parcel_fields
  = Return (JStr "JOHN SMITH")
  /\ owner_of (JList [JDict [("eo_since", JStr "2019")]]) parcel_fields
     = Return (JStr "SMITH JOHN")
  /\ owner_of (JList []) parcel_fields = Return (JStr "SMITH JOHN")
  /\ owner_of (JList []) (JDict []) = Return (JStr "")
  /\ valuation_from parcel_fields
     = Return {| total_value := JNum 250000; land_value := JNum 0;
                 improvement_value := JNum 0 |}.
Proof. repeat split. Qed.

(** A deed with two addresses: the match starts at the first one. *)
Lemma locate_leftmost_witness :
  exists before after,
    upper "Grantor of 77 Oak Ave conveys 123 Main St"
    = (before ++ "77 OAK AVE CONVEYS 123 MAIN ST" ++ after)%string
    /\ String.length before = 11
    /\ Spec.is_address "77 OAK AVE CONVEYS 123 MAIN ST".
Proof.
  pose proof (AddressFacts.locate_leftmost "Grantor of 77 Oak Ave conveys 123 Main St")
    as H.
  change (locate "Grantor of 77 Oak Ave conveys 123 Main St")
    with (Some {| m_start := 11; group0 := "77 OAK AVE CONVEYS 123 MAIN ST" |}) in H.
  destruct H as (before & after & Hs & Hstart & Ha & _).
  exists before, after. simpl in Hstart. auto.
Defined.

End Scenarios.

(* ===================================================================== *)
(** * Case and padding *)
(* ===================================================================== *)

Module CaseFacts.
Import PyStr Py Re StrFacts.

Lemma upper_char_idem c : upper_char (upper_char c) = upper_char c.
Proof. destruct c as [[] [] [] [] [] [] [] []]; reflexivity. Qed.

Lemma isspace_upper_char c : isspace (upper_char c) = isspace c.
Proof. destruct c as [[] [] [] [] [] [] [] []]; reflexivity. Qed.


Lemma upper_idem s : upper (upper s) = upper s.
Proof. induction s as [|c s IH]; simpl; [reflexivity|]. rewrite upper_char_idem, IH. reflexivity. Qed.

Lemma is_empty_upper s : is_empty (upper s) = is_empty s.
Proof. destruct s; reflexivity. Qed.

Lemma lstrip_upper s : lstrip (upper s) = upper (lstrip s).
Proof.
  induction s as [|c s IH]; simpl; [reflexivity|].
  rewrite isspace_upper_char. destruct (isspace c); [exact IH|reflexivity].
Qed.

Lemma rstrip_upper s : rstrip (upper s) = upper (rstrip s).
Proof.
  induction s as [|c s IH]; simpl; [reflexivity|].
  rewrite IH, isspace_upper_char.
  destruct (rstrip s); simpl; [destruct (isspace c)|]; reflexivity.
Qed.

Lemma strip_upper s : strip (upper s) = upper (strip s).
Proof. unfold strip. rewrite lstrip_upper, rstrip_upper. reflexivity. Qed.

Lemma split_from_upper s :
  forall cur, split_from (upper cur) (upper s) = map upper (split_from cur s).
Proof.
  induction s as [|c s IH]; intros cur; simpl.
  - destruct cur; reflexivity.
  - rewrite isspace_upper_char. destruct (isspace c).
    + destruct cur; simpl; rewrite <- (IH EmptyString); reflexivity.
    + rewrite <- IH, upper_append. reflexivity.
Qed.

Lemma split_upper s : split (upper s) = map upper (split s).
Proof. apply (split_from_upper s EmptyString). Qed.

(** A string that starts clean is its own [lstrip]; one that ends clean is
    its own [rstrip]. *)
Lemma lstrip_clean t :
  (forall c rest, t = String c rest -> isspace c = false) -> lstrip t = t.
Proof.
  destruct t as [|c t]; intros H; simpl; [reflexivity|].
  rewrite (H c t eq_refl). reflexivity.
Qed.

Lemma rstrip_clean t :
  (forall rest c, t = (rest ++ String c EmptyString)%string -> isspace c = false) ->
  rstrip t = t.
Proof.
  induction t as [|c t IH]; intros H; simpl; [reflexivity|].
  rewrite IH.
  - destruct t as [|a t]; [|reflexivity].
    rewrite (H EmptyString c eq_refl). reflexivity.
  - intros rest c0 Ht. apply (H (String c rest) c0). simpl. congruence.
Qed.

Lemma strip_idem s : strip (strip s) = strip s.
Proof.
  destruct (strip_is_trim s) as (l & r & _ & _ & _ & Hstart & Hend).
  unfold strip at 1. rewrite (lstrip_clean _ Hstart). apply rstrip_clean. exact Hend.
Qed.

(** A string of white space strips to nothing. *)
Lemma lstrip_blank s : all_in isspace s = true -> lstrip s = EmptyString.
Proof.
  induction s as [|c s IH]; simpl; [reflexivity|].
  intros H. apply andb_true_iff in H. destruct H as [Hc Hs]. rewrite Hc. auto.
Qed.

Lemma strip_blank s : all_in isspace s = true -> strip s = EmptyString.
Proof. intros H. unfold strip. rewrite (lstrip_blank s H). reflexivity. Qed.

End CaseFacts.

(* ===================================================================== *)
(** * The name matcher at its edges *)
(* ===================================================================== *)

Module MatcherEdges.
Import PyStr Py Re NameMatcher StrFacts NameMatcherFacts CaseFacts.

Lemma truthy_upper s : truthy (JStr (upper s)) = truthy (JStr s).
Proof. simpl. rewrite is_empty_upper. reflexivity. Qed.

(** X1. The matcher ignores letter case: upper-casing either argument
    changes nothing, whatever the other argument is. *)
Theorem is_name_match_ignores_case :
  forall score (name : string) (other : value) threshold,
    is_name_match score (JStr (upper name)) other threshold
    = is_name_match score (JStr name) other threshold
    /\ is_name_match score other (JStr (upper name)) threshold
       = is_name_match score other (JStr name) threshold.
Proof.
  intros score name other threshold. unfold is_name_match.
  rewrite !truthy_upper. split.
  - destruct (negb (truthy (JStr name)) || negb (truthy other)); [reflexivity|].
    simpl. rewrite strip_upper, upper_idem. reflexivity.
  - destruct (negb (truthy other) || negb (truthy (JStr name))); [reflexivity|].
    destruct (as_str other "strip"); simpl; [|reflexivity].
    rewrite strip_upper, upper_idem. reflexivity.
Qed.

Lemma truthy_strip s : strip s <> EmptyString -> truthy (JStr (strip s)) = truthy (JStr s).
Proof.
  intros H. simpl. destruct s as [|c s]; [contradiction H; reflexivity|].
  destruct (strip (String c s)); [contradiction H; reflexivity|reflexivity].
Qed.

(** X2. The matcher ignores the white space around a name that is not
    blank: stripping either argument beforehand changes nothing. *)
Theorem is_name_match_ignores_padding :
  forall score (name : string) (other : value) threshold,
    strip name <> EmptyString ->
    is_name_match score (JStr (strip name)) other threshold
    = is_name_match score (JStr name) other threshold
    /\ is_name_match score other (JStr (strip name)) threshold
       = is_name_match score other (JStr name) threshold.
Proof.
  intros score name other threshold Hname. unfold is_name_match.
  rewrite !(truthy_strip name Hname). split.
  - destruct (negb (truthy (JStr name)) || negb (truthy other)); [reflexivity|].
    simpl. rewrite strip_idem. reflexivity.
  - destruct (negb (truthy other) || negb (truthy (JStr name))); [reflexivity|].
    destruct (as_str other "strip"); simpl; [|reflexivity].
    rewrite strip_idem. reflexivity.
Qed.

Lemma is_name_match_ignores_padding_witness :
  strip "  John Smith " <> EmptyString
  /\ is_name_match Fuzz.partial_ratio (JStr (strip "  John Smith ")) (JStr "SMITH JOHN") 70
     = is_name_match Fuzz.partial_ratio (JStr "  John Smith ") (JStr "SMITH JOHN") 70.
Proof.
  assert (H : strip "  John Smith " <> EmptyString) by discriminate.
  split; [exact H|].
  exact (proj1 (is_name_match_ignores_padding Fuzz.partial_ratio "  John Smith "
                  (JStr "SMITH JOHN") 70%Z H)).
Defined.

(** X3. Blank strings pass the empty-input guard: two strings that are not
    empty and hold only white space always match, whatever the scorer and
    the threshold, because both strip to the empty string and the two
    strings of initials are then equal. *)
Theorem blank_names_match :
  forall score (a b : string) threshold,
    a <> EmptyString -> b <> EmptyString ->
    all_in isspace a = true -> all_in isspace b = true ->
    is_name_match score (JStr a) (JStr b) threshold = Return true.
Proof.
  intros score a b threshold Ha Hb Hsa Hsb.
  rewrite is_name_match_on_strings. unfold Spec.matches.
  apply is_empty_false in Ha. apply is_empty_false in Hb. rewrite Ha, Hb. simpl.
  rewrite (strip_blank a Hsa), (strip_blank b Hsb). simpl.
  destruct (threshold <=? _)%Z; reflexivity.
Qed.

Lemma blank_names_match_witness :
  is_name_match (fun _ _ => 0%Z) (JStr " ") (JStr (String "009"%char " ")) 70
  = Return true.
Proof.
  apply blank_names_match; try discriminate; reflexivity.
Defined.

(** X4. Lowering the threshold never loses a match: what matches at a
    threshold matches at every lower one. *)
Theorem threshold_monotone :
  forall score (a b : value) threshold lower,
    (lower <= threshold)%Z ->
    is_name_match score a b threshold = Return true ->
    is_name_match score a b lower = Return true.
Proof.
  intros score a b threshold lower Hle. unfold is_name_match.
  destruct (negb (truthy a) || negb (truthy b)); [discriminate|].
  destruct (as_str a "strip") as [o|e]; simpl; [|discriminate].
  destruct (as_str b "strip") as [r|e]; simpl; [|discriminate].
  rewrite !Z.geb_leb.
  destruct (threshold <=? _)%Z eqn:Ht.
  - intros _. apply Z.leb_le in Ht.
    assert (Hl : (lower <=? score (upper (strip o)) (upper (strip r)))%Z = true)
      by (apply Z.leb_le; lia).
    rewrite Hl. reflexivity.
  - intros H. destruct (lower <=? _)%Z; [reflexivity|exact H].
Qed.

Lemma threshold_monotone_witness :
  is_name_match Fuzz.partial_ratio (JStr "JON SMYTH") (JStr "JOHN SMITH") 70 = Return true
  /\ is_name_match Fuzz.partial_ratio (JStr "JON SMYTH") (JStr "JOHN SMITH") 50 = Return true.
Proof.
  assert (H : is_name_match Fuzz.partial_ratio (JStr "JON SMYTH") (JStr "JOHN SMITH") 70
              = Return true) by (vm_compute; reflexivity).
  split; [exact H|].
  apply (threshold_monotone Fuzz.partial_ratio (JStr "JON SMYTH") (JStr "JOHN SMITH")
           70%Z 50%Z); [lia|exact H].
Defined.

Lemma initials_scan_app a :
  forall start c b,
    isspace c = true ->
    Spec.initials_scan start (a ++ String c b)
    = (Spec.initials_scan start a ++ Spec.initials_scan true b)%string.
Proof.
  induction a as [|x a IH]; intros start c b Hc; simpl.
  - rewrite Hc. reflexivity.
  - destruct (isspace x); [apply IH; exact Hc|].
    destruct start; simpl; rewrite IH by exact Hc; reflexivity.
Qed.

Lemma map_r_length {A B} (f : A -> result B) xs :
  forall ys, map_r f xs = Return ys -> List.length ys = List.length xs.
Proof.
  induction xs as [|x xs IH]; intros ys H; simpl in H.
  - injection H as <-. reflexivity.
  - destruct (f x); simpl in H; [|discriminate].
    destruct (map_r f xs) as [zs|]; simpl in H; [|discriminate].
    injection H as <-. simpl. f_equal. apply IH. reflexivity.
Qed.

Lemma string_of_chars_length cs : String.length (string_of_chars cs) = List.length cs.
Proof. induction cs; simpl; congruence. Qed.

(** X5. The initials of a name hold one character per word, and the
    initials of two names joined by white space are the initials of the
    first followed by those of the second. *)
Theorem initials_per_word :
  forall name,
    (exists i, initials name = Return i /\ String.length i = List.length (split name))
    /\ forall other sep,
         isspace sep = true ->
         exists i j,
           initials name = Return i /\ initials other = Return j /\
           initials (name ++ String sep other) = Return (i ++ j)%string.
Proof.
  intros name. split.
  - unfold initials. destruct (map_r first_char (split name)) as [cs|e] eqn:Hcs.
    + exists (string_of_chars cs). split; [reflexivity|].
      rewrite string_of_chars_length. eapply map_r_length; exact Hcs.
    + exfalso. pose proof (initials_ok name) as H. unfold initials in H.
      rewrite Hcs in H. discriminate.
  - intros other sep Hsep. exists (Spec.initials name), (Spec.initials other).
    rewrite !initials_ok. repeat split.
    unfold Spec.initials. rewrite initials_scan_app by exact Hsep. reflexivity.
Qed.

Lemma initials_per_word_witness :
  isspace " "%char = true
  /\ exists i j,
       initials "JOHN A" = Return i /\ initials "SMITH" = Return j /\
       initials ("JOHN A" ++ String " "%char "SMITH") = Return (i ++ j)%string.
Proof.
  split; [reflexivity|].
  exact (proj2 (initials_per_word "JOHN A") "SMITH" " "%char eq_refl).
Defined.

End MatcherEdges.

(* ===================================================================== *)
(** * The address reconciler at its edges *)
(* ===================================================================== *)

Module ReconcilerEdges.
Import PyStr Py Re Pipeline StrFacts CaseFacts.
Import PipelineFacts.

(** A token that is not truthy is not present; a present token is truthy. *)
Lemma token_present_truthy up token :
  token_present up token = Return true -> truthy token = true.
Proof. unfold token_present. destruct (truthy token); [reflexivity|discriminate]. Qed.

Lemma matched_le_truthy up tokens :
  forall matched,
    filter_r (token_present up) tokens = Return matched ->
    List.length matched <= List.length (filter truthy tokens).
Proof.
  induction tokens as [|t ts IH]; intros matched H; simpl in H.
  - injection H as <-. simpl. lia.
  - apply bind_return in H. destruct H as (b & Hb & H).
    apply bind_return in H. destruct H as (ys & Hys & H).
    injection H as <-. specialize (IH ys Hys). simpl.
    destruct b.
    + rewrite (token_present_truthy _ _ Hb). simpl. lia.
    + destruct (truthy t); simpl; lia.
Qed.

(** X6. A registry record with fewer than three non-empty address
    components never reconciles, whatever the deed text says. *)
Theorem few_components_never_match :
  forall tokens deed_text,
    List.length (filter truthy tokens) < 3 ->
    reconcile tokens deed_text <> Return true.
Proof.
  intros tokens deed_text Hfew H. unfold reconcile in H.
  apply bind_return in H. destruct H as (matched & Hm & H).
  apply matched_le_truthy in Hm.
  assert (Hthree : Nat.leb 3 (List.length matched) = true) by congruence.
  apply Nat.leb_le in Hthree. lia.
Qed.

Lemma few_components_never_match_witness :
  List.length (filter truthy [JStr ""; JNull; JStr ""; JStr "DALLAS"; JStr "75201"]) < 3
  /\ reconcile [JStr ""; JNull; JStr ""; JStr "DALLAS"; JStr "75201"]
       "123 Main St, Dallas TX 75201" <> Return true.
Proof.
  assert (H : List.length
                (filter truthy [JStr ""; JNull; JStr ""; JStr "DALLAS"; JStr "75201"]) < 3)
    by (simpl; lia).
  split; [exact H|].
  exact (few_components_never_match _ "123 Main St, Dallas TX 75201" H).
Defined.





Lemma occurs_in_wider text sub before after :
  Spec.occurs_in text sub -> Spec.occurs_in (before ++ text ++ after) sub.
Proof.
  intros (p & q & ->). exists (before ++ p)%string, (q ++ after)%string.
  rewrite !append_assoc. reflexivity.
Qed.

Lemma token_present_wider deed_text before after token b :
  token_present (upper deed_text) token = Return b ->
  exists b',
    token_present (upper (before ++ deed_text ++ after)) token = Return b' /\
    (b = true -> b' = true).
Proof.
  unfold token_present. destruct (truthy token); [|intros [= <-]; eauto].
  destruct (as_str token "upper") as [t|e]; simpl; [|discriminate].
  intros [= <-]. eexists. split; [reflexivity|].
  intros H. apply contains_spec. apply contains_spec in H.
  rewrite !upper_append. apply occurs_in_wider. exact H.
Qed.

(** X8. More deed text never loses the address: when the tokens reconcile
    with a text, they reconcile with every text that contains it. *)
Theorem reconcile_monotone :
  forall tokens deed_text before after,
    reconcile tokens deed_text = Return true ->
    reconcile tokens (before ++ deed_text ++ after) = Return true.
Proof.
  intros tokens deed_text before after. unfold reconcile.
  set (wide := (before ++ deed_text ++ after)%string).
  assert (H : forall ys,
             filter_r (token_present (upper deed_text)) tokens = Return ys ->
             exists zs,
               filter_r (token_present (upper wide)) tokens = Return zs /\
               List.length ys <= List.length zs).
  { induction tokens as [|t ts IH]; intros ys Hys; simpl in *.
    - injection Hys as <-. eauto.
    - apply bind_return in Hys. destruct Hys as (b & Hb & Hys).
      apply bind_return in Hys. destruct Hys as (ys' & Hys' & Hys).
      injection Hys as <-.
      destruct (token_present_wider deed_text before after t b Hb) as (b' & Hb' & Himp).
      destruct (IH ys' Hys') as (zs & Hzs & Hlen).
      fold wide in Hb'. rewrite Hb', Hzs. simpl. eexists. split; [reflexivity|].
      destruct b; [rewrite (Himp eq_refl); simpl; lia|].
      destruct b'; simpl; lia. }
  intros Hrec. apply bind_return in Hrec. destruct Hrec as (ys & Hys & Hrec).
  destruct (H ys Hys) as (zs & -> & Hlen).
  assert (Hthree : Nat.leb 3 (List.length ys) = true) by congruence.
  apply Nat.leb_le in Hthree.
  assert (Hwide : Nat.leb 3 (List.length zs) = true) by (apply Nat.leb_le; lia).
  unfold Res.bind. rewrite Hwide. reflexivity.
Qed.

Lemma reconcile_monotone_witness :
  reconcile (map JStr ["123"; "MAIN"; "ST"; "DALLAS"; "75201"]) "123 Main St"
  = Return true
  /\ reconcile (map JStr ["123"; "MAIN"; "ST"; "DALLAS"; "75201"])
       ("Deed of sale. " ++ "123 Main St" ++ ", Texas")%string = Return true.
Proof.
  assert (H : reconcile (map JStr ["123"; "MAIN"; "ST"; "DALLAS"; "75201"]) "123 Main St"
              = Return true) by reflexivity.
  split; [exact H|].
  exact (reconcile_monotone _ "123 Main St" "Deed of sale. " ", Texas" H).
Defined.

End ReconcilerEdges.

(* ===================================================================== *)
(** * The address locator at its edges *)
(* ===================================================================== *)

Module LocatorEdges.
Import PyStr Py Re AddressLocator Pipeline StrFacts ReFacts CaseFacts.

Lemma all_in_app cls a b : all_in cls (a ++ b) = all_in cls a && all_in cls b.
Proof. induction a as [|c a IH]; simpl; [reflexivity|]. rewrite IH, andb_assoc. reflexivity. Qed.

Lemma all_in_impl (p q : ascii -> bool) s :
  (forall c, p c = true -> q c = true) -> all_in p s = true -> all_in q s = true.
Proof.
  intros Hpq. induction s as [|c s IH]; simpl; [reflexivity|].
  intros H. apply andb_true_iff in H. destruct H as [Hc Hs].
  rewrite (Hpq c Hc), (IH Hs). reflexivity.
Qed.


Lemma street_type_chars ty :
  In ty street_types -> all_in street_char ty = true /\ 2 <= String.length ty.
Proof.
  intros H. repeat (destruct H as [<-|H]; [split; [reflexivity|simpl; lia]|]).
  destruct H.
Qed.

(** What [locate] returns is an address of the pattern, at its place in the
    upper-cased text. *)
Lemma locate_address deed_text m :
  locate deed_text = Some m ->
  exists before after,
    upper deed_text = (before ++ group0 m ++ after)%string /\
    m_start m = String.length before /\ Spec.is_address (group0 m).
Proof.
  unfold locate, search. intros H. apply search_from_some in H.
  destruct H as (before & after & Hs & Hstart & Hl & _).
  exists before, after. repeat split; auto.
  apply AddressFacts.address_language. exact Hl.
Qed.

(** X9. The address sent to the registry is clean: it holds only uppercase
    letters, digits, white space and hyphens, begins with a digit, is at
    least 6 characters long and lies within the deed text. *)
Theorem located_address_is_clean :
  forall deed_text m,
    locate deed_text = Some m ->
    all_in street_char (group0 m) = true
    /\ 6 <= String.length (group0 m)
    /\ m_start m + String.length (group0 m) <= String.length deed_text
    /\ exists digit rest, group0 m = String digit rest /\ isdigit digit = true.
Proof.
  intros deed_text m H. apply locate_address in H.
  destruct H as (before & after & Hs & Hstart & Ha).
  destruct Ha as (number & gap & run & ty & Hm & Hn & (Hn2 & Hn6) & Hg & Hg1 & Hr & Hr1 & Ht).
  apply street_type_chars in Ht. destruct Ht as (Htc & Htl).
  repeat split.
  - rewrite Hm, !all_in_app, Hr, Htc.
    rewrite (all_in_impl isdigit street_char number), (all_in_impl isspace street_char gap);
      auto; intros c Hc; unfold street_char; rewrite Hc;
      repeat rewrite orb_true_r; reflexivity.
  - rewrite Hm, !length_append. lia.
  - rewrite <- (upper_length deed_text), Hs, Hstart, !length_append. lia.
  - rewrite Hm. destruct number as [|d number]; [simpl in Hn2; lia|].
    exists d. eexists. split; [reflexivity|].
    simpl in Hn. apply andb_true_iff in Hn. tauto.
Qed.

Lemma located_address_is_clean_witness :
  locate "Lot #4, at 123 main st. (Dallas)" = Some {| m_start := 11; group0 := "123 MAIN ST" |}
  /\ all_in street_char "123 MAIN ST" = true.
Proof.
  assert (H : locate "Lot #4, at 123 main st. (Dallas)"
              = Some {| m_start := 11; group0 := "123 MAIN ST" |}) by reflexivity.
  split; [exact H|].
  exact (proj1 (located_address_is_clean _ _ H)).
Defined.



(** X11. Letter case plays no part in the address: the locator and the
    reconciler give the same answer on the upper-cased deed text, and a
    token counts as present the same whether upper-cased or not. *)
Theorem address_ignores_case :
  forall deed_text tokens token,
    locate (upper deed_text) = locate deed_text
    /\ reconcile tokens (upper deed_text) = reconcile tokens deed_text
    /\ token_present (upper deed_text) (JStr (upper token))
       = token_present (upper deed_text) (JStr token).
Proof.
  intros deed_text tokens token. unfold locate, reconcile, token_present.
  rewrite upper_idem. repeat split.
  simpl. rewrite is_empty_upper, upper_idem. reflexivity.
Qed.

End LocatorEdges.

(* ===================================================================== *)
(** * The order of the street types *)
(* ===================================================================== *)

Module LocatorOrder.
Import PyStr Py Re AddressLocator StrFacts ReFacts.

Lemma startswith_drop_prefix p s :
  startswith p s = match drop_prefix p s with Some _ => true | None => false end.
Proof.
  revert s; induction p as [|a p IH]; intros s; simpl; [reflexivity|].
  destruct s as [|b s]; [reflexivity|].
  destruct (Ascii.eqb a b); simpl; [apply IH|reflexivity].
Qed.

(** An alternation, with nothing after it to fail, takes the first
    alternative that fits. *)
Lemma bt_alternation_first others :
  forall first s rest,
    bt (alternation first others) s (fun r => Some r) = Some rest ->
    exists ty,
      find (fun t => startswith t s) (first :: others) = Some ty /\
      s = (ty ++ rest)%string.
Proof.
  induction others as [|o others IH]; intros first s rest H; simpl in H.
  - destruct (drop_prefix first s) as [r|] eqn:Hp; [|discriminate].
    injection H as ->. exists first. simpl.
    rewrite startswith_drop_prefix, Hp. split; [reflexivity|].
    apply drop_prefix_some. exact Hp.
  - destruct (drop_prefix first s) as [r|] eqn:Hp.
    + injection H as ->. exists first. simpl.
      rewrite startswith_drop_prefix, Hp. split; [reflexivity|].
      apply drop_prefix_some. exact Hp.
    + apply IH in H. destruct H as (ty & Hfind & Hs). exists ty.
      split; [|exact Hs].
      change (find (fun t => startswith t s) (first :: o :: others))
        with (if startswith first s then Some first
              else find (fun t => startswith t s) (o :: others)).
      rewrite startswith_drop_prefix, Hp. exact Hfind.
Qed.

Lemma match_front_bt r s m :
  match_front r s = Some m ->
  exists rest, s = (m ++ rest)%string /\ bt r s (fun r => Some r) = Some rest.
Proof.
  unfold match_front. destruct (bt r s (fun rest => Some rest)) as [rest|] eqn:H;
    [|discriminate].
  intros [= <-]. pose proof H as Hbt. apply bt_sound in H.
  destruct H as (m & rest' & -> & _ & [= ->]).
  exists rest. rewrite take_app. split; reflexivity.
Qed.

Lemma search_from_front r s :
  forall pos mo,
    search_from pos r s = Some mo ->
    exists before rest,
      s = (before ++ group0 mo ++ rest)%string /\
      bt r (group0 mo ++ rest) (fun r => Some r) = Some rest.
Proof.
  induction s as [|c s IH]; intros pos mo H; simpl in H.
  - destruct (match_front r EmptyString) as [m|] eqn:Hm; [|discriminate].
    injection H as <-. apply match_front_bt in Hm. destruct Hm as (rest & Hs & Hbt).
    exists EmptyString, rest. simpl. split; [exact Hs|rewrite <- Hs; exact Hbt].
  - destruct (match_front r (String c s)) as [m|] eqn:Hm.
    + injection H as <-. apply match_front_bt in Hm. destruct Hm as (rest & Hs & Hbt).
      exists EmptyString, rest. simpl. split; [exact Hs|rewrite <- Hs; exact Hbt].
    + apply IH in H. destruct H as (before & rest & -> & Hbt).
      exists (String c before), rest. split; [reflexivity|exact Hbt].
Qed.

Lemma append_cancel_r (a b c : string) : (a ++ c = b ++ c)%string -> a = b.
Proof.
  intros H.
  assert (Hlen : String.length a = String.length b).
  { apply (f_equal String.length) in H. rewrite !length_append in H. lia. }
  revert b H Hlen. induction a as [|x a IH]; intros [|y b] H Hlen;
    simpl in *; try discriminate; [reflexivity|].
  injection H as -> H. f_equal. apply IH; [exact H|lia].
Qed.

(** The match of the locator, with the street type the pattern took: the
    first of the vocabulary, in the order of the pattern, that the text at
    the end of the run starts with. *)
Lemma locate_street_type deed_text m :
  locate deed_text = Some m ->
  exists body ty rest,
    group0 m = (body ++ ty)%string /\
    find (fun t => startswith t (ty ++ rest)) street_types = Some ty.
Proof.
  unfold locate, search. intros H. apply search_from_front in H.
  destruct H as (before & rest & _ & Hbt).
  unfold address_regex in Hbt. simpl bt in Hbt.
  apply rep_bt_sound in Hbt. destruct Hbt as (number & r1 & Hs1 & _ & _ & _ & Hbt).
  apply rep_bt_sound in Hbt. destruct Hbt as (gap & r2 & -> & _ & _ & _ & Hbt).
  apply rep_bt_sound in Hbt. destruct Hbt as (run & r3 & -> & _ & _ & _ & Hbt).
  apply (bt_alternation_first (tl street_types) "RD") in Hbt.
  destruct Hbt as (ty & Hfind & ->).
  exists (number ++ gap ++ run)%string, ty, rest. split; [|exact Hfind].
  apply (append_cancel_r _ _ rest). rewrite Hs1, !append_assoc. reflexivity.
Qed.

Lemma append_suffix_cases (x a y b : string) :
  (x ++ a = y ++ b)%string ->
  (exists z, a = (z ++ b)%string) \/ (exists z, b = (z ++ a)%string).
Proof.
  revert y; induction x as [|c x IH]; intros y H; simpl in H.
  - left. exists y. exact H.
  - destruct y as [|d y]; simpl in H.
    + right. exists (String c x). symmetry. exact H.
    + injection H as _ H. apply IH in H. exact H.
Qed.

(** Refutes [exists z, s = z ++ t] for two strings given in full. *)
Ltac no_such_prefix H :=
  let z := fresh "z" in
  destruct H as (z & H);
  repeat (destruct z as [|? z]; simpl in H;
          [discriminate H|]; first [discriminate H | injection H as _ H]);
  destruct z; discriminate H.

(** X12. The vocabulary lists PL before PLACE and CIR before CIRCLE, and
    the pattern takes the first street type that fits: the located address
    never ends in PLACE or in CIRCLE (an address on MAIN PLACE is located as
    MAIN PL). *)
Theorem place_and_circle_shadowed :
  forall deed_text m,
    locate deed_text = Some m ->
    (forall before, group0 m <> (before ++ "PLACE")%string)
    /\ (forall before, group0 m <> (before ++ "CIRCLE")%string).
Proof.
  intros deed_text m H. apply locate_street_type in H.
  destruct H as (body & ty & rest & -> & Hfind).
  pose proof (find_some _ _ Hfind) as [Hin _].
  split; intros before Heq; apply append_suffix_cases in Heq;
    simpl in Hin;
    repeat (destruct Hin as [<-|Hin];
            [first [ discriminate Hfind
                   | destruct Heq as [Heq|Heq]; no_such_prefix Heq ]|]);
    destruct Hin.
Qed.

Lemma place_and_circle_shadowed_witness :
  locate "12 Main Place, Dallas" = Some {| m_start := 0; group0 := "12 MAIN PL" |}
  /\ (forall before, "12 MAIN PL" <> (before ++ "PLACE")%string).
Proof.
  assert (H : locate "12 Main Place, Dallas"
              = Some {| m_start := 0; group0 := "12 MAIN PL" |}) by reflexivity.
  split; [exact H|].
  exact (proj1 (place_and_circle_shadowed _ _ H)).
Defined.

End LocatorOrder.

(* ===================================================================== *)
(** * The pipeline at its edges *)
(* ===================================================================== *)

Module PipelineEdges.
Import PyStr Py Re AddressLocator NameMatcher Pipeline StrFacts NameMatcherFacts
  CaseFacts PipelineFacts.

(** A candidate name is the upper-cased text of a PERSON entity of two
    words or more. *)
Lemma names_of_spec ents name :
  In name (names_of ents) ->
  upper name = name /\ 2 <= List.length (split name) /\ name <> EmptyString /\
  exists e, In e ents /\ ent_label e = "PERSON" /\ name = upper (ent_text e).
Proof.
  unfold names_of. intros H. apply in_map_iff in H. destruct H as (e & <- & He).
  apply filter_In in He. destruct He as (He & Hp).
  unfold is_person in Hp. apply andb_true_iff in Hp. destruct Hp as (Hl & Hw).
  apply String.eqb_eq in Hl. apply Nat.leb_le in Hw.
  assert (Hwords : 2 <= List.length (split (upper (ent_text e))))
    by (rewrite split_upper, length_map; exact Hw).
  repeat split.
  - apply upper_idem.
  - exact Hwords.
  - intros Hempty. rewrite Hempty in Hwords. simpl in Hwords. lia.
  - exists e. auto.
Qed.

Lemma next_where_some {A} (p : A -> result bool) xs x :
  next_where p xs = Return (Some x) -> In x xs /\ p x = Return true.
Proof.
  induction xs as [|y xs IH]; simpl; [discriminate|].
  destruct (p y) as [[|]|e] eqn:Hy; simpl.
  - intros [= <-]. auto.
  - intros H. apply IH in H. tauto.
  - discriminate.
Qed.

Lemma first_matching_falsy score names owner :
  truthy owner = false -> first_matching score names owner = Return None.
Proof.
  intros Howner. unfold first_matching.
  induction names as [|n names IH]; simpl; [reflexivity|].
  unfold is_name_match at 1. rewrite Howner, orb_true_r. simpl. exact IH.
Qed.

Lemma first_matching_harmful score name names owner :
  name <> EmptyString -> harmless owner = false ->
  first_matching score (name :: names) owner = Raise (AttributeError owner "strip").
Proof.
  intros Hname Howner. unfold first_matching. simpl.
  unfold is_name_match. apply is_empty_false in Hname.
  unfold harmless in Howner. apply orb_false_iff in Howner. destruct Howner as (Ht & Hs).
  apply negb_false_iff in Ht. simpl. rewrite Hname, Ht. simpl.
  destruct owner; try discriminate; reflexivity.
Qed.

Section WithCollaborators.

Variable World : Type.
Variable image_to_string : list Byte.byte -> World -> result string * World.
Variable nlp : string -> World -> result (list entity) * World.
Variable requests_get :
  string -> list (string * string) -> list (string * string) ->
  World -> result http_response * World.
Variable partial_ratio : string -> string -> Z.
Variable API_KEY : option string.
Variable format_value : value -> string.

Local Abbreviation respond :=
  (respond World image_to_string nlp requests_get partial_ratio API_KEY format_value).
Local Abbreviation judge := (judge partial_ratio format_value).
Local Abbreviation first_matching := (first_matching partial_ratio).

(** X13. [extract_owners_with_spacy] makes one call to the entity model
    and keeps its entities in order; every name it returns is upper-case, is
    not empty, has two words or more, and is the upper-cased text of an
    entity labelled PERSON. *)
Theorem candidate_names :
  forall text st names st',
    extract_owners_with_spacy World nlp text st = (Return names, st') ->
    (exists ents,
       nlp text (world World st) = (Return ents, world World st') /\
       names = names_of ents /\
       calls World st' = calls World st ++ [CallNlp text])
    /\ forall name,
         In name names ->
         upper name = name /\ 2 <= List.length (split name) /\ name <> EmptyString /\
         exists e, ent_label e = "PERSON" /\ name = upper (ent_text e).
Proof.
  intros text st names st'.
  unfold extract_owners_with_spacy, bind, perform, ret.
  destruct (nlp text (world World st)) as [[ents|e] w] eqn:Hnlp; simpl; [|discriminate].
  intros [= <- <-]. simpl. split.
  - exists ents. repeat split.
  - intros name Hin. apply names_of_spec in Hin.
    destruct Hin as (Hu & Hw & Hn & e & _ & Hl & He). repeat split; eauto.
Qed.

(** What a response with the evidence comes from. *)
Lemma respond_evidence deed id w resp st ev :
  respond deed id w = (Return resp, st) ->
  body resp = Evidence ev ->
  exists deed_text id_text deed_ents id_ents response m,
    AddressLocator.locate deed_text = Some m /\
    judge deed_text (names_of deed_ents) (names_of id_ents) response = Return resp /\
    calls World st = reading_calls deed id deed_text id_text ++ [registry_call API_KEY m].
Proof.
  intros Hrun Hbody.
  destruct (respond_cases World image_to_string nlp requests_get partial_ratio API_KEY
              format_value deed id w) as (resp' & st' & Hrun' & Hcases).
  rewrite Hrun in Hrun'. injection Hrun' as <- <-.
  destruct Hcases as [(e & ->)|(dt & it & dn & idn & w4 & Hex & [(_ & -> & _)|Hreg])];
    try discriminate.
  destruct Hreg as (m & response & w5 & Hm & _ & -> & [(_ & ->)|(_ & Hj)]);
    try discriminate.
  destruct Hex as (w1 & w2 & w3 & e1 & e2 & _ & _ & _ & _ & -> & ->).
  exists dt, it, e1, e2, response, m. repeat split; assumption.
Qed.

(** X14. The evidence is consistent: a selected name is one of the names
    extracted from its document, a true verdict needs a name from one of the
    two documents, every extracted name is upper-case with two words or
    more, and the response is a 200 sent after one registry call. *)
Theorem evidence_is_consistent :
  forall deed id w resp st ev,
    respond deed id w = (Return resp, st) ->
    body resp = Evidence ev ->
    (forall name, matched_name_from_deed ev = Some name ->
                  In name (extracted_deed_names ev))
    /\ (forall name, matched_name_from_id ev = Some name ->
                     In name (extracted_id_names ev))
    /\ (is_match ev = true ->
        extracted_deed_names ev <> [] \/ extracted_id_names ev <> [])
    /\ (forall name,
          In name (extracted_deed_names ev ++ extracted_id_names ev) ->
          upper name = name /\ 2 <= List.length (split name))
    /\ status resp = 200%Z
    /\ List.length (filter is_get (calls World st)) = 1.
Proof.
  intros deed id w resp st ev Hrun Hbody.
  destruct (respond_evidence deed id w resp st ev Hrun Hbody)
    as (dt & it & e1 & e2 & response & m & Hm & Hj & Hcalls).
  apply judge_cases in Hj.
  destruct Hj as (data & features & _ & _ & [(_ & ->)|(_ & Hev)]); [discriminate|].
  destruct Hev as (f0 & props & fields & enh & toks & ev' & Hev).
  destruct Hev as (_ & _ & _ & _ & _ & _ & Hid & Hdeed & _ & _ & _ & Hfuse & _ & _
                   & Hdn & Hidn & ->).
  simpl in Hbody. injection Hbody as <-.
  assert (Hd : forall name, matched_name_from_deed ev' = Some name ->
                            In name (extracted_deed_names ev')).
  { intros name Hname. rewrite Hname in Hdeed. unfold Pipeline.first_matching in Hdeed.
    apply next_where_some in Hdeed. rewrite Hdn. tauto. }
  assert (Hi : forall name, matched_name_from_id ev' = Some name ->
                            In name (extracted_id_names ev')).
  { intros name Hname. rewrite Hname in Hid. unfold Pipeline.first_matching in Hid.
    apply next_where_some in Hid. rewrite Hidn. tauto. }
  repeat split.
  - exact Hd.
  - exact Hi.
  - intros Htrue. rewrite Hfuse in Htrue. unfold fuse in Htrue.
    apply andb_true_iff in Htrue. destruct Htrue as [_ Hname].
    apply orb_true_iff in Hname. destruct Hname as [Hname|Hname].
    + left. destruct (matched_name_from_deed ev') as [n|]; [|discriminate].
      intros Hnil. specialize (Hd n eq_refl). rewrite Hnil in Hd. exact Hd.
    + right. destruct (matched_name_from_id ev') as [n|]; [|discriminate].
      intros Hnil. specialize (Hi n eq_refl). rewrite Hnil in Hi. exact Hi.
  - rewrite Hdn, Hidn in H. apply in_app_or in H.
    destruct H as [H|H]; apply names_of_spec in H; tauto.
  - rewrite Hdn, Hidn in H. apply in_app_or in H.
    destruct H as [H|H]; apply names_of_spec in H; tauto.
  - rewrite Hcalls. reflexivity.
Qed.

(** X15. No owner on record, no match: when the owner of the evidence is
    falsy (null, the empty string, an override that is present and empty),
    no name is selected from either document and the verdict is false. *)
Theorem no_owner_no_match :
  forall deed id w resp st ev,
    respond deed id w = (Return resp, st) ->
    body resp = Evidence ev ->
    truthy (regrid_owner ev) = false ->
    matched_name_from_deed ev = None /\ matched_name_from_id ev = None /\
    is_match ev = false.
Proof.
  intros deed id w resp st ev Hrun Hbody Howner.
  destruct (respond_evidence deed id w resp st ev Hrun Hbody)
    as (dt & it & e1 & e2 & response & m & _ & Hj & _).
  apply judge_cases in Hj.
  destruct Hj as (data & features & _ & _ & [(_ & ->)|(_ & Hev)]); [discriminate|].
  destruct Hev as (f0 & props & fields & enh & toks & ev' & Hev).
  destruct Hev as (_ & _ & _ & _ & _ & _ & Hid & Hdeed & _ & _ & _ & Hfuse & _ & _
                   & _ & _ & ->).
  simpl in Hbody. injection Hbody as <-.
  rewrite first_matching_falsy in Hid by exact Howner.
  rewrite first_matching_falsy in Hdeed by exact Howner.
  injection Hid as Hid. injection Hdeed as Hdeed.
  rewrite Hfuse, <- Hid, <- Hdeed. unfold fuse. simpl.
  rewrite andb_false_r. auto.
Qed.

(** X16. An owner that is neither falsy nor a string (a number, a list)
    makes the selection raise on the first candidate, so the evidence of a
    request that extracted a name always carries an owner that is a string
    or falsy. *)
Theorem owner_must_be_text :
  forall deed id w resp st ev,
    respond deed id w = (Return resp, st) ->
    body resp = Evidence ev ->
    extracted_deed_names ev ++ extracted_id_names ev <> [] ->
    harmless (regrid_owner ev) = true
    /\ forall name names owner,
         name <> EmptyString -> harmless owner = false ->
         first_matching (name :: names) owner = Raise (AttributeError owner "strip").
Proof.
  intros deed id w resp st ev Hrun Hbody Hnames.
  split; [|intros; apply first_matching_harmful; assumption].
  destruct (respond_evidence deed id w resp st ev Hrun Hbody)
    as (dt & it & e1 & e2 & response & m & _ & Hj & _).
  apply judge_cases in Hj.
  destruct Hj as (data & features & _ & _ & [(_ & ->)|(_ & Hev)]); [discriminate|].
  destruct Hev as (f0 & props & fields & enh & toks & ev' & Hev).
  destruct Hev as (_ & _ & _ & _ & _ & _ & Hid & Hdeed & _ & _ & _ & _ & _ & _
                   & Hdn & Hidn & ->).
  simpl in Hbody. injection Hbody as <-.
  destruct (harmless (regrid_owner ev')) eqn:Hh; [reflexivity|exfalso].
  rewrite Hdn, Hidn in Hnames.
  destruct (names_of e1) as [|n ns] eqn:H1.
  - destruct (names_of e2) as [|n ns] eqn:H2; [apply Hnames; reflexivity|].
    assert (Hn : n <> EmptyString).
    { apply (names_of_spec e2). rewrite H2. left; reflexivity. }
    rewrite (first_matching_harmful _ _ _ _ Hn Hh) in Hid. discriminate.
  - assert (Hn : n <> EmptyString).
    { apply (names_of_spec e1). rewrite H1. left; reflexivity. }
    rewrite (first_matching_harmful _ _ _ _ Hn Hh) in Hdeed. discriminate.
Qed.

Ltac run_request :=
  cbv beta delta [Pipeline.respond verify try_except verify_try bind lift ret
    extract_text_from_image extract_owners_with_spacy perform names_of];
  simpl.

(** X17. The registry is called at most once per request, and last: the
    log of a request either holds no registry call (and at most the four
    reading calls), or is the two OCR calls, the two entity extractions and
    one GET whose query is the address located in the deed's text, on the
    path /us/tx/dallas. *)
Theorem registry_called_at_most_once :
  forall deed id w,
    let log := calls World (snd (respond deed id w)) in
    (existsb is_get log = false /\ List.length log <= 4)
    \/ exists deed_text id_text m w1,
         image_to_string deed w = (Return deed_text, w1) /\
         AddressLocator.locate deed_text = Some m /\
         log = reading_calls deed id deed_text id_text
               ++ [CallGet url (headers API_KEY)
                     [("query", group0 m); ("path", "/us/tx/dallas")]].
Proof.
  intros deed id w. run_request.
  destruct (image_to_string deed w) as [[deed_text|e] w1] eqn:H1; simpl;
    [|left; split; [reflexivity|simpl; lia]].
  destruct (image_to_string id w1) as [[id_text|e] w2] eqn:H2; simpl;
    [|left; split; [reflexivity|simpl; lia]].
  destruct (nlp deed_text w2) as [[deed_ents|e] w3] eqn:H3; simpl;
    [|left; split; [reflexivity|simpl; lia]].
  destruct (nlp id_text w3) as [[id_ents|e] w4] eqn:H4; simpl;
    [|left; split; [reflexivity|simpl; lia]].
  destruct (AddressLocator.locate deed_text) as [m|] eqn:Hm; simpl;
    [|left; split; [reflexivity|simpl; lia]].
  right. exists deed_text, id_text, m, w1. split; [reflexivity|]. split; [exact Hm|].
  destruct (requests_get _ _ _ w4) as [[response|e] w5]; simpl; [|reflexivity].
  destruct (negb _); simpl; [reflexivity|].
  destruct (Pipeline.judge _ _ _ _ _ response); reflexivity.
Qed.

Lemma first_matching_find names (owner : option string) :
  first_matching names (of_option owner)
  = Return (find (fun name => Spec.matches partial_ratio (Some name) owner 70) names).
Proof.
  unfold Pipeline.first_matching. apply next_where_find. intros name _.
  destruct owner as [o|]; [apply is_name_match_on_strings|].
  unfold is_name_match; simpl. rewrite orb_true_r. reflexivity.
Qed.

Lemma is_some_find {A} (q : A -> bool) xs :
  is_some (find q xs) = true <-> exists x, In x xs /\ q x = true.
Proof.
  destruct (find q xs) as [x|] eqn:Hf; simpl.
  - apply find_some in Hf. split; eauto.
  - split; [discriminate|]. intros (x & Hx & Hq).
    rewrite (find_none _ _ Hf x Hx) in Hq. discriminate.
Qed.

(** X18. On a registry record of the expected types (the first feature's
    fields a dict, the owner a string or absent, the five address components
    strings) the judgement never fails: it answers 200, selects from each
    document the first name the matcher accepts, and the verdict is true
    exactly when at least three components are present in the deed text and
    some name of either document is accepted. *)
Theorem judge_on_record :
  forall deed_text deed_names id_names response data f0 rest props fl enhanced
         (owner : option string) (tokens : list string),
    json response = Return data ->
    features_of data = Return (JList (f0 :: rest)) ->
    get f0 "properties" (JDict []) = Return props ->
    get props "fields" (JDict []) = Return (JDict fl) ->
    get props "enhanced_ownership" (JList []) = Return enhanced ->
    owner_of enhanced (JDict fl) = Return (of_option owner) ->
    address_tokens (JDict fl) = Return (map JStr tokens) ->
    let accepts := fun name => Spec.matches partial_ratio (Some name) owner 70 in
    let present := List.length (filter (string_present deed_text) tokens) in
    exists ev,
      judge deed_text deed_names id_names response
      = Return {| status := 200; body := Evidence ev |}
      /\ regrid_owner ev = of_option owner
      /\ matched_name_from_deed ev = find accepts deed_names
      /\ matched_name_from_id ev = find accepts id_names
      /\ deed_address_match ev = Nat.leb 3 present
      /\ (is_match ev = true <->
          3 <= present /\
          exists name, In name (deed_names ++ id_names) /\ accepts name = true).
Proof.
  intros deed_text dn idn response data f0 rest props fl enhanced owner tokens
    Hjson Hfeat Hprops Hfields Henh Howner Htokens accepts present.
  unfold Pipeline.judge.
  rewrite Hjson. cbn [Res.bind]. rewrite Hfeat. cbn [Res.bind truthy negb item0].
  rewrite Hprops. cbn [Res.bind]. rewrite Hfields. cbn [Res.bind].
  rewrite Henh. cbn [Res.bind]. rewrite Howner. cbn [Res.bind].
  unfold address_of, valuation_from. cbn [get Res.bind].
  rewrite !first_matching_find. cbn [Res.bind].
  rewrite Htokens. cbn [Res.bind].
  unfold reconcile. rewrite ReconcilerFacts.matched_string_tokens. cbn [Res.bind].
  rewrite length_map.
  eexists. split; [reflexivity|].
  cbn [regrid_owner matched_name_from_deed matched_name_from_id deed_address_match
       is_match].
  fold accepts. fold present.
  split; [reflexivity|]. split; [reflexivity|]. split; [reflexivity|].
  split; [reflexivity|].
  unfold fuse. rewrite andb_true_iff, orb_true_iff, Nat.leb_le, !is_some_find.
  split.
  - intros (Hp & [(x & Hx & Hq)|(x & Hx & Hq)]); (split; [exact Hp|]); exists x;
      (split; [apply in_or_app; auto|exact Hq]).
  - intros (Hp & x & Hin & Hq). split; [exact Hp|].
    apply in_app_or in Hin. destruct Hin; [left|right]; eauto.
Qed.

End WithCollaborators.

End PipelineEdges.

(* ===================================================================== *)
(** * Concrete runs at the edges *)
(* ===================================================================== *)

Module EdgeScenarios.
Import PyStr Py Re AddressLocator NameMatcher Pipeline Doubles.

Local Abbreviation deed_text := "Warranty deed. Grantee John Smith, 123 Main St, Dallas".

(** The deed of John Smith: of its two entities only the person is kept. *)
Lemma candidate_names_witness :
  extract_owners_with_spacy World (nlp entities) deed_text {| world := 0; calls := [] |}
  = (Return ["JOHN SMITH"], {| world := 1; calls := [CallNlp deed_text] |})
  /\ upper "JOHN SMITH" = "JOHN SMITH"
  /\ 2 <= List.length (split "JOHN SMITH").
Proof.
  assert (H : extract_owners_with_spacy World (nlp entities) deed_text
                {| world := 0; calls := [] |}
              = (Return ["JOHN SMITH"], {| world := 1; calls := [CallNlp deed_text] |}))
    by reflexivity.
  split; [exact H|].
  destruct (proj2 (PipelineEdges.candidate_names World (nlp entities) deed_text _ _ _ H)
              "JOHN SMITH" (or_introl eq_refl)) as (Hu & Hw & _).
  split; assumption.
Defined.

Lemma evidence_is_consistent_witness :
  exists resp st ev,
    run (answer (parcels [feature "JOHN SMITH"])) deed_image id_image = (Return resp, st)
    /\ body resp = Evidence ev
    /\ (forall name, matched_name_from_deed ev = Some name ->
                     In name (extracted_deed_names ev))
    /\ List.length (filter is_get (calls World st)) = 1.
Proof.
  eexists _, _, _.
  split; [vm_compute; reflexivity|]. split; [reflexivity|].
  pose proof (PipelineEdges.evidence_is_consistent World image_to_string (nlp entities)
                (requests_get (answer (parcels [feature "JOHN SMITH"])))
                Fuzz.partial_ratio (Some "key") format_value deed_image id_image 0
                _ _ _ ltac:(vm_compute; reflexivity) eq_refl) as H.
  split; [exact (proj1 H)|]. exact (proj2 (proj2 (proj2 (proj2 (proj2 H))))).
Defined.

(** An override owner that is present and null hides the owner field: the
    deed and the ID of John Smith do not match the parcel of SMITH JOHN. *)
Lemma no_owner_no_match_witness :
  exists resp st ev,
    run (answer (parcels [feature_owned_by JNull])) deed_image id_image = (Return resp, st)
    /\ body resp = Evidence ev
    /\ truthy (regrid_owner ev) = false
    /\ deed_address_match ev = true
    /\ is_match ev = false.
Proof.
  eexists _, _, _.
  split; [vm_compute; reflexivity|]. split; [reflexivity|].
  split; [reflexivity|]. split; [reflexivity|].
  refine (proj2 (proj2 (PipelineEdges.no_owner_no_match World image_to_string
                          (nlp entities)
                          (requests_get (answer (parcels [feature_owned_by JNull])))
                          Fuzz.partial_ratio (Some "key") format_value
                          deed_image id_image 0 _ _ _ _ _ _)));
    [vm_compute; reflexivity|reflexivity|reflexivity].
Defined.

(** An owner given as a number: the request fails with the attribute error
    of [strip]; with a string it succeeds and the owner is text. *)
Lemma owner_must_be_text_witness :
  fst (run (answer (parcels [feature_owned_by (JNum 42)])) deed_image id_image)
  = Return (unexpected_failure (AttributeError (JNum 42) "strip"))
  /\ exists resp st ev,
       run (answer (parcels [feature "JOHN SMITH"])) deed_image id_image
       = (Return resp, st)
       /\ body resp = Evidence ev
       /\ extracted_deed_names ev ++ extracted_id_names ev <> []
       /\ harmless (regrid_owner ev) = true.
Proof.
  split; [vm_compute; reflexivity|].
  eexists _, _, _.
  split; [vm_compute; reflexivity|]. split; [reflexivity|].
  split; [discriminate|].
  refine (proj1 (PipelineEdges.owner_must_be_text World image_to_string (nlp entities)
                   (requests_get (answer (parcels [feature "JOHN SMITH"])))
                   Fuzz.partial_ratio (Some "key") format_value
                   deed_image id_image 0 _ _ _ _ _ _));
    [vm_compute; reflexivity|reflexivity|discriminate].
Defined.

(** The record of the doubles is of the expected types. *)
Lemma judge_on_record_witness :
  owner_of (JList [JDict [("eo_owner", JStr "JOHN SMITH")]]) (JDict parcel_items)
  = Return (of_option (Some "JOHN SMITH"))
  /\ address_tokens (JDict parcel_items)
     = Return (map JStr ["123"; "MAIN"; "ST"; "DALLAS"; "75201"])
  /\ exists ev,
       judge Fuzz.partial_ratio format_value deed_text ["JOHN SMITH"] ["JOHN A SMITH"]
         (answer (parcels [feature "JOHN SMITH"]))
       = Return {| status := 200; body := Evidence ev |}
       /\ regrid_owner ev = JStr "JOHN SMITH".
Proof.
  split; [reflexivity|]. split; [reflexivity|].
  destruct (PipelineEdges.judge_on_record Fuzz.partial_ratio format_value deed_text
              ["JOHN SMITH"] ["JOHN A SMITH"]
              (answer (parcels [feature "JOHN SMITH"]))
              (parcels [feature "JOHN SMITH"]) (feature "JOHN SMITH") []
              (JDict [("fields", JDict parcel_items);
                      ("enhanced_ownership",
                       JList [JDict [("eo_owner", JStr "JOHN SMITH")]])])
              parcel_items
              (JList [JDict [("eo_owner", JStr "JOHN SMITH")]])
              (Some "JOHN SMITH") ["123"; "MAIN"; "ST"; "DALLAS"; "75201"]
              eq_refl eq_refl eq_refl eq_refl eq_refl eq_refl eq_refl)
    as (ev & Hj & Ho & _).
  exists ev. split; assumption.
Defined.

End EdgeScenarios.
